(** * MyPlayer: a depth-limited alpha-beta agent for Divercite

    Shallow embedding of [src/my_player.py] and verification of its
    specification.

    Modelling conventions.
    - Heuristic values are Python numbers: the integers produced by
      [evaluate_state] and the two floats [-math.inf] and [math.inf] used
      as sentinels and as the root window.  They are the type [value].
    - Times (seconds, as returned by [time.time()]) are rationals [Q].
      The rounding of the code's binary64 arithmetic is not modelled: the
      statements about times use the order of times and the additions
      and subtractions of the code, in the order the code performs them,
      and regroup no sum.
    - A Python exception is the absence of a result: the functions of the
      search return [option], where [None] is the [KeyError] raised by a
      failed dictionary lookup in [evaluate_state].  [compute_action]
      distinguishes it from its own [MethodNotImplementedError].
    - The rules engine (board, move generator, successor function) is
      external to the file; it is the interface [Game]. *)

From Stdlib Require Import ZArith QArith Lia Lqa.
From stdpp Require Import base option list list_monad gmap.

(** ** Heuristic values: integers with the two infinities *)

Inductive value : Type :=
| NegInf
| Fin (z : Z)
| PosInf.

#[global] Instance value_eq_dec : EqDecision value.
Proof. solve_decision. Defined.

Module Value.

(** Python's [x < y] on numbers that are integers or infinities. *)
Definition ltb (x y : value) : bool :=
  match x, y with
  | NegInf, NegInf => false
  | NegInf, _ => true
  | Fin a, Fin b => (a <? b)%Z
  | Fin _, PosInf => true
  | Fin _, NegInf => false
  | PosInf, _ => false
  end.

(** [x > y], [x <= y] and [x >= y]. *)
Definition gtb (x y : value) : bool := ltb y x.
Definition leb (x y : value) : bool := negb (ltb y x).
Definition geb (x y : value) : bool := negb (ltb x y).

(** Greatest and least of two values, for the exhaustive search. *)
Definition max (x y : value) : value := if ltb x y then y else x.
Definition min (x y : value) : value := if ltb y x then y else x.

End Value.

Infix "<?v" := Value.ltb (at level 70, no associativity).
Infix ">?v" := Value.gtb (at level 70, no associativity).
Infix "<=?v" := Value.leb (at level 70, no associativity).
Infix ">=?v" := Value.geb (at level 70, no associativity).

(** [x <v y] and [x ≤v y] are the two outcomes of the test [x < y] read
    in both directions. *)
Notation "x <v y" := (Value.ltb x y = true) (at level 70, no associativity).
Notation "x ≤v y" := (Value.ltb y x = false) (at level 70, no associativity).

(** ** Exceptions and outcomes of a decision cycle *)

Inductive exn : Type :=
| KeyError
| MethodNotImplementedError.

Inductive outcome (A : Type) : Type :=
| Return (a : A)
| Raise (e : exn).

Arguments Return {A} a.
Arguments Raise {A} e.

(** ** The rules engine consumed by the agent

    The methods of the game state that the agent calls.  Moves are
    compared with [==] by the membership test of [compute_action]: they
    are a type with decidable equality.  The score table and the board
    environment are dictionaries. *)

Class Game (State Action Piece PlayerId : Type)
    `{EqDecision Action} `{Countable PlayerId} := {
  is_done : State → bool;
  generate_possible_light_actions : State → list Action;
  apply_action : State → Action → State;
  scores : State → gmap PlayerId Z;
  players : State → list PlayerId;
  get_dimensions : State → Z * Z;
  get_env : State → gmap (Z * Z) Piece;
  in_board : State → Z * Z → bool;
  check_divercite : State → Z * Z → bool;
  get_owner_id : Piece → PlayerId
}.

(** Python's [range(n)] for an integer [n]: empty when [n <= 0]. *)
Definition range (n : Z) : list Z := Z.of_nat <$> seq 0 (Z.to_nat n).

(** [x > y] on times. *)
Definition Qgtb (x y : Q) : bool := negb (Qle_bool x y).

(** ** The agent *)

Record MyPlayer (PlayerId : Type) : Type := {
  get_id : PlayerId;
  time_used : Q;
  total_time_budget : Q
}.

Arguments get_id {PlayerId} _.
Arguments time_used {PlayerId} _.
Arguments total_time_budget {PlayerId} _.

(** [__init__]: nothing spent yet, fifteen minutes for the match. *)
Definition init {PlayerId : Type} (id : PlayerId) : MyPlayer PlayerId :=
  {| get_id := id; time_used := 0; total_time_budget := 900 |}.

Section Agent.

Context {State Action Piece PlayerId : Type}.
Context `{G : Game State Action Piece PlayerId}.

Local Abbreviation Self := (MyPlayer PlayerId).

(** [get_opponent_id]: the first listed player whose id differs from
    the agent's; Python's implicit [None] when the scan finds nobody. *)
Fixpoint first_other (current_player_id : PlayerId) (l : list PlayerId)
  : option PlayerId :=
  match l with
  | [] => None
  | player :: rest =>
      if decide (player ≠ current_player_id) then Some player
      else first_other current_player_id rest
  end.

Definition get_opponent_id (self : Self) (game_state : State)
  : option PlayerId :=
  first_other (get_id self) (players game_state).

(** [get_dynamic_depth]. *)
Definition get_dynamic_depth (self : Self) (remaining_time : Q) : nat :=
  if Qgtb remaining_time 600 then 3
  else if Qgtb remaining_time 300 then 2
  else 1.

(** The test of lines 140-143 on one cell: does it add one to the count?
    The condition of line 140 is the piece found by [get], a true value,
    or nothing. *)
Definition counts_cell (state : State) (player_id : PlayerId) (c : Z * Z)
  : bool :=
  match (if in_board state c then get_env state !! c else None) with
  | Some piece =>
      bool_decide (get_owner_id piece = player_id) && check_divercite state c
  | None => false
  end.

(** [count_divercite_potential]: the two nested [for] loops, threading
    the counter. *)
Definition count_divercite_potential (self : Self) (state : State)
    (player_id : PlayerId) : Z :=
  foldl (fun count i =>
    foldl (fun count j =>
      if counts_cell state player_id (i, j) then (count + 1)%Z else count)
      count (range (get_dimensions state).2))
    0%Z (range (get_dimensions state).1).

(** [evaluate_state].  The two subscripts [state.scores[...]] raise
    [KeyError] on a missing key; an unresolved opponent is the key
    [None].  The score table of the rules engine is keyed by player ids:
    a table that holds the key [None] is not modelled. *)
Definition evaluate_state (self : Self) (state : State) : option Z :=
  player_score ← scores state !! get_id self;
  opponent ← get_opponent_id self state;
  opponent_score ← scores state !! opponent;
  let divercite_bonus := 5%Z in
  let score_diff := (player_score - opponent_score)%Z in
  let divercite_potential :=
    (count_divercite_potential self state (get_id self)
     - count_divercite_potential self state opponent)%Z in
  Some (score_diff + divercite_potential * divercite_bonus)%Z.

(** *** The search *)

(** Running state of a loop of [minimax]: the best value so far, the
    move that gave it, and the bound the loop tightens ([alpha] in the
    maximizing branch, [beta] in the minimizing one). *)
Definition loop_state : Type := value * option Action * value.

(** Lines 94-97. *)
Definition max_step (st : loop_state) (action : Action) (v : value)
  : loop_state :=
  let '(max_value, best_action, alpha) := st in
  if v >?v max_value then (v, Some action, v) else st.

(** Lines 106-109. *)
Definition min_step (st : loop_state) (action : Action) (v : value)
  : loop_state :=
  let '(min_value, best_action, beta) := st in
  if v <?v min_value then (v, Some action, v) else st.

Section Loops.

(** The recursive call on a successor, at the window given. *)
Variable rec : State → value → value → option (value * option Action).
Variable state : State.

(** Lines 91-100: the loop of the maximizing branch, on the moves still
    to visit. *)
Fixpoint max_loop (beta : value) (actions : list Action) (st : loop_state)
  : option (value * option Action) :=
  match actions with
  | [] => Some (st.1.1, st.1.2)
  | action :: rest =>
      r ← rec (apply_action state action) st.2 beta;
      let st' := max_step st action r.1 in
      if st'.1.1 >=?v beta then Some (st'.1.1, st'.1.2)
      else max_loop beta rest st'
  end.

(** Lines 103-112: the loop of the minimizing branch. *)
Fixpoint min_loop (alpha : value) (actions : list Action) (st : loop_state)
  : option (value * option Action) :=
  match actions with
  | [] => Some (st.1.1, st.1.2)
  | action :: rest =>
      r ← rec (apply_action state action) alpha st.2;
      let st' := min_step st action r.1 in
      if st'.1.1 <=?v alpha then Some (st'.1.1, st'.1.2)
      else min_loop alpha rest st'
  end.

End Loops.

(** [minimax].  [depth] is a natural number: the callers pass the result
    of [get_dynamic_depth] and each call passes [depth - 1] of a depth
    that is not zero. *)
Fixpoint minimax (self : Self) (state : State) (depth : nat)
    (alpha beta : value) (maximizing_player : bool)
  : option (value * option Action) :=
  match depth with
  | O => v ← evaluate_state self state; Some (Fin v, None)
  | S depth' =>
      if is_done state then v ← evaluate_state self state; Some (Fin v, None)
      else if maximizing_player then
        max_loop (fun s a b => minimax self s depth' a b false) state beta
          (generate_possible_light_actions state) (NegInf, None, alpha)
      else
        min_loop (fun s a b => minimax self s depth' a b true) state alpha
          (generate_possible_light_actions state) (PosInf, None, beta)
  end.

(** *** The controller *)

(** [compute_action], with the two readings of the clock as inputs.
    The search is the method [self.minimax], late bound: the controller
    is written over the search it calls. *)
Definition compute_action_with
    (search : Self → State → nat → value → value → bool
              → option (value * option Action))
    (self : Self) (current_state : State) (remaining_time : Q)
    (clock : Q * Q) : Self * outcome Action :=
  let remaining_game_time := (total_time_budget self - time_used self)%Q in
  let depth := get_dynamic_depth self remaining_game_time in
  let start_time := clock.1 in
  match search self current_state depth NegInf PosInf true with
  | None => (self, Raise KeyError)
  | Some (_, action) =>
      let self' :=
        {| get_id := get_id self;
           time_used := (time_used self + (clock.2 - start_time))%Q;
           total_time_budget := total_time_budget self |} in
      match action with
      | Some a =>
          if bool_decide (a ∈ generate_possible_light_actions current_state)
          then (self', Return a)
          else (self', Raise MethodNotImplementedError)
      | None => (self', Raise MethodNotImplementedError)
      end
  end.

Definition compute_action : Self → State → Q → Q * Q → Self * outcome Action :=
  compute_action_with minimax.

(** ** Reference definitions, after the specification *)

(** Exhaustive depth-limited minimax: every legal move of every node is
    explored; a maximizing node takes the greatest value of its
    successors, a minimizing node the least; a node at depth zero or of a
    finished game takes its heuristic value. *)
Fixpoint minimax_exhaustive (self : Self) (state : State) (depth : nat)
    (maximizing_player : bool) : option value :=
  match depth with
  | O => Fin <$> evaluate_state self state
  | S depth' =>
      if is_done state then Fin <$> evaluate_state self state
      else
        vs ← mapM (fun a => minimax_exhaustive self (apply_action state a)
                              depth' (negb maximizing_player))
                  (generate_possible_light_actions state);
        Some (if maximizing_player then foldr Value.max NegInf vs
              else foldr Value.min PosInf vs)
  end.

(** What a search at the window [(alpha, beta)] promises about the
    exhaustive value [e] of the node: a result above [alpha] does not
    exceed [e], and a result below [beta] is not exceeded by [e]. *)
Definition bounded (alpha beta v e : value) : Prop :=
  (alpha <v v → v ≤v e) ∧ (v <v beta → e ≤v v).

(** The cells of the board's rectangular extent, row by row. *)
Definition cells (state : State) : list (Z * Z) :=
  i ← range (get_dimensions state).1;
  j ← range (get_dimensions state).2;
  [(i, j)].

(** A cell that is on the playable board, occupied, owned by
    [player_id], and satisfies the formation predicate. *)
Definition formation_cell (state : State) (player_id : PlayerId)
    (c : Z * Z) : Prop :=
  in_board state c = true ∧
  ∃ piece, get_env state !! c = Some piece ∧
           get_owner_id piece = player_id ∧
           check_divercite state c = true.

(** ** Instrumentation of the search: the moves a node explores *)

Section Traces.

Variable rec : State → value → value → option (value * option Action).
Variable state : State.

(** The moves visited by [max_loop], each with the value its recursive
    call returned. *)
Fixpoint max_trace (beta : value) (actions : list Action) (st : loop_state)
  : option (list (Action * value)) :=
  match actions with
  | [] => Some []
  | action :: rest =>
      r ← rec (apply_action state action) st.2 beta;
      let st' := max_step st action r.1 in
      if st'.1.1 >=?v beta then Some [(action, r.1)]
      else cons (action, r.1) <$> max_trace beta rest st'
  end.

Fixpoint min_trace (alpha : value) (actions : list Action) (st : loop_state)
  : option (list (Action * value)) :=
  match actions with
  | [] => Some []
  | action :: rest =>
      r ← rec (apply_action state action) alpha st.2;
      let st' := min_step st action r.1 in
      if st'.1.1 <=?v alpha then Some [(action, r.1)]
      else cons (action, r.1) <$> min_trace alpha rest st'
  end.

End Traces.

(** The moves explored by a call of [minimax] that enters a loop. *)
Definition explored (self : Self) (state : State) (depth' : nat)
    (alpha beta : value) (maximizing_player : bool)
  : option (list (Action * value)) :=
  if maximizing_player then
    max_trace (fun s a b => minimax self s depth' a b false) state beta
      (generate_possible_light_actions state) (NegInf, None, alpha)
  else
    min_trace (fun s a b => minimax self s depth' a b true) state alpha
      (generate_possible_light_actions state) (PosInf, None, beta).

(** The value a loop starts from: [-inf] when maximizing, [+inf] when
    minimizing. *)
Definition sentinel (maximizing_player : bool) : value :=
  if maximizing_player then NegInf else PosInf.

(** [move] is the earliest entry of the trace whose value is [v]. *)
Definition earliest_with (tr : list (Action * value)) (v : value)
    (move : option Action) : Prop :=
  ∃ pre a post,
    tr = pre ++ (a, v) :: post ∧ move = Some a ∧
    Forall (fun p => p.2 ≠ v) pre.

(** ** A sequence of decision cycles *)

Record call : Type := {
  call_state : State;
  call_remaining_time : Q;
  call_clock : Q * Q
}.

(** The duration measured around the search of a call. *)
Definition duration (c : call) : Q := ((call_clock c).2 - (call_clock c).1)%Q.

(** The sum of a list of durations. *)
Definition total (l : list Q) : Q := foldr Qplus 0%Q l.

Definition chosen_depth (self : Self) : nat :=
  get_dynamic_depth self (total_time_budget self - time_used self)%Q.

Definition step (self : Self) (c : call) : Self :=
  (compute_action self (call_state c) (call_remaining_time c)
     (call_clock c)).1.

(** The agent after the calls of a list, in order. *)
Definition run (self : Self) (calls : list call) : Self :=
  foldl step self calls.

(** Every search of the sequence returns (no [KeyError] escapes). *)
Fixpoint searches_return (self : Self) (calls : list call) : Prop :=
  match calls with
  | [] => True
  | c :: rest =>
      is_Some (minimax self (call_state c) (chosen_depth self)
                 NegInf PosInf true) ∧
      searches_return (step self c) rest
  end.

(** The search result is a move of the current legal-move set. *)
Definition is_legal (state : State) (move : option Action) : Prop :=
  ∃ a, move = Some a ∧ a ∈ generate_possible_light_actions state.

End Agent.

Arguments call State : clear implicits.

(** ** A small concrete rules engine

    Finite game trees whose nodes carry everything the agent reads.  A
    move is the index of a successor. *)

Module Tree.

#[warning="-register-all"]
Inductive node : Type :=
  Node (done : bool) (score : gmap nat Z) (ids : list nat) (dims : Z * Z)
       (env : gmap (Z * Z) nat) (formations : list (Z * Z))
       (kids : list node).

Definition done (n : node) : bool := let 'Node d _ _ _ _ _ _ := n in d.
Definition score (n : node) : gmap nat Z := let 'Node _ s _ _ _ _ _ := n in s.
Definition ids (n : node) : list nat := let 'Node _ _ p _ _ _ _ := n in p.
Definition dims (n : node) : Z * Z := let 'Node _ _ _ d _ _ _ := n in d.
Definition env (n : node) : gmap (Z * Z) nat :=
  let 'Node _ _ _ _ e _ _ := n in e.
Definition formations (n : node) : list (Z * Z) :=
  let 'Node _ _ _ _ _ f _ := n in f.
Definition kids (n : node) : list node := let 'Node _ _ _ _ _ _ k := n in k.

(** Players 0 and 1; a piece is its owner's id. *)
#[global] Instance game : Game node nat nat nat := {|
  is_done := done;
  generate_possible_light_actions n := seq 0 (length (kids n));
  apply_action n a := nth a (kids n) n;
  scores := score;
  players := ids;
  get_dimensions := dims;
  get_env := env;
  in_board n c := true;
  check_divercite n c := bool_decide (c ∈ formations n);
  get_owner_id p := p
|}.

(** A position with no board, scored [a] for player 0 and [b] for
    player 1. *)
Definition bare (finished : bool) (a b : Z) (k : list node) : node :=
  Node finished {[ 0 := a; 1 := b ]} [0; 1] (0, 0)%Z ∅ [] k.

Definition leaf (a b : Z) : node := bare true a b [].

(** A finished 2x2 board: player 0 holds (0,0) and (1,1), player 1 holds
    (0,1); the three cells are formation points. *)
Definition board : node :=
  Node true {[ 0 := 7%Z; 1 := 4%Z ]} [0; 1] (2, 2)%Z
       {[ (0, 0)%Z := 0; (1, 1)%Z := 0; (0, 1)%Z := 1 ]}
       [(0, 0)%Z; (1, 1)%Z; (0, 1)%Z] [].

(** A two-ply tree on which the second branch is cut off. *)
Definition small : node :=
  bare false 0 0
    [ bare false 0 0 [leaf 3 0; leaf 5 0];
      bare false 0 0 [leaf 2 0; leaf 9 0];
      bare false 0 0 [leaf 3 0; leaf 1 0] ].

(** A three-ply tree with cutoffs at both inner levels. *)
Definition deep : node :=
  bare false 0 0
    [ bare false 0 0 [ bare false 0 0 [leaf 4 0; leaf 6 0];
                       bare false 0 0 [leaf 7 0; leaf 1 0] ];
      bare false 0 0 [ bare false 0 0 [leaf 2 0; leaf 3 0];
                       bare false 0 0 [leaf 9 0; leaf 9 0] ] ].

(** A position that is not finished and offers no move. *)
Definition stuck : node := bare false 0 0 [].

(** Three plies down a single line that ends in [stuck]. *)
Definition line : node := bare false 0 0 [bare false 0 0 [stuck]].

(** A finished position whose tables name player 0 alone: the opponent
    cannot be resolved. *)
Definition broken : node := Node true {[ 0 := 0%Z ]} [0] (0, 0)%Z ∅ [] [].

(** The second branch is cut off before its malformed leaf is reached. *)
Definition masked : node :=
  bare false 0 0
    [ bare false 0 0 [leaf 5 0];
      bare false 0 0 [leaf 2 0; broken] ].

Definition me : MyPlayer nat := init 0.

(** Two decision cycles on [small], measured at 2 and 5 seconds. *)
Definition cycles : list (call node) :=
  [ {| call_state := small; call_remaining_time := 0;
       call_clock := (10, 12)%Q |};
    {| call_state := small; call_remaining_time := 0;
       call_clock := (20, 25)%Q |} ].

(** A search stubbed to return a move that no position offers. *)
Definition stub (self : MyPlayer nat) (state : node) (depth : nat)
    (alpha beta : value) (maximizing_player : bool)
  : option (value * option nat) :=
  Some (Fin 0, Some 7).

(** One decision cycle on [small] during which the system clock is set
    back: it reads 5 before the search and 3 after it. *)
Definition rewound : list (call node) :=
  [ {| call_state := small; call_remaining_time := 0;
       call_clock := (5, 3)%Q |} ].

(** The agent seated as player 1. *)
Definition other : MyPlayer nat := init 1.

(** One decision cycle on [small] measured at 350 seconds. *)
Definition slow : list (call node) :=
  [ {| call_state := small; call_remaining_time := 0;
       call_clock := (0, 350)%Q |} ].

(** One ply above two finished positions. *)
Definition pair : node := bare false 0 0 [leaf 3 0; leaf 5 0].

End Tree.

(** ** A second rules engine: a countdown

    A position is a number of tokens; a move takes one or two of them;
    the game is finished when none is left.  Every position that is not
    finished has a move, and every position has both scores. *)

Module Countdown.

Definition moves (n : nat) : list nat :=
  match n with
  | 0 => []
  | 1 => [1]
  | _ => [1; 2]
  end.

#[global] Instance game : Game nat nat nat nat := {|
  is_done n := Nat.eqb n 0;
  generate_possible_light_actions := moves;
  apply_action n a := n - a;
  scores n := {[ 0 := Z.of_nat (n `mod` 3); 1 := 0%Z ]};
  players n := [0; 1];
  get_dimensions n := (0, 0)%Z;
  get_env n := ∅;
  in_board n c := true;
  check_divercite n c := false;
  get_owner_id p := p
|}.

Definition me : MyPlayer nat := init 0.

End Countdown.

(** * Verification *)

(** ** The order on values *)

Ltac value_cases :=
  intros;
  unfold Value.leb, Value.geb, Value.gtb, Value.max, Value.min in *;
  repeat match goal with v : value |- _ => destruct v end;
  simpl in *;
  repeat match goal with
    | H : context [(?a <? ?b)%Z] |- _ => destruct (Z.ltb_spec a b)
    | |- context [(?a <? ?b)%Z] => destruct (Z.ltb_spec a b)
    end;
  simpl in *; try congruence; try lia; try (f_equal; lia).

Module ValueFacts.

Lemma le_refl x : x ≤v x.
Proof. value_cases. Qed.

Lemma le_trans x y z : x ≤v y → y ≤v z → x ≤v z.
Proof. value_cases. Qed.

Lemma lt_le_trans x y z : x <v y → y ≤v z → x <v z.
Proof. value_cases. Qed.

Lemma le_lt_trans x y z : x ≤v y → y <v z → x <v z.
Proof. value_cases. Qed.

Lemma lt_le x y : x <v y → x ≤v y.
Proof. value_cases. Qed.

Lemma le_antisym x y : x ≤v y → y ≤v x → x = y.
Proof. value_cases. Qed.

Lemma le_cases x y : x ≤v y → x <v y ∨ x = y.
Proof.
  intros Hle. destruct (x <?v y) eqn:Hlt; [by left | right].
  by apply le_antisym.
Qed.

Lemma neg_inf_le x : NegInf ≤v x.
Proof. value_cases. Qed.

Lemma le_pos_inf x : x ≤v PosInf.
Proof. value_cases. Qed.

Lemma neg_inf_lt x y : x <v y → NegInf <v y.
Proof. value_cases. Qed.

Lemma lt_pos_inf x y : x <v y → x <v PosInf.
Proof. value_cases. Qed.

Lemma le_max_l x y z : x ≤v y → x ≤v Value.max y z.
Proof. value_cases. Qed.

Lemma le_max_r x y z : x ≤v z → x ≤v Value.max y z.
Proof. value_cases. Qed.

Lemma max_le x y z : x ≤v z → y ≤v z → Value.max x y ≤v z.
Proof. value_cases. Qed.

Lemma min_le_l x y z : x ≤v z → Value.min x y ≤v z.
Proof. value_cases. Qed.

Lemma min_le_r x y z : y ≤v z → Value.min x y ≤v z.
Proof. value_cases. Qed.

Lemma le_min x y z : z ≤v x → z ≤v y → z ≤v Value.min x y.
Proof. value_cases. Qed.

End ValueFacts.


Lemma Qgtb_true (x y : Q) : Qgtb x y = true ↔ (y < x)%Q.
Proof.
  unfold Qgtb. rewrite negb_true_iff, <- not_true_iff_false, Qle_bool_iff.
  split; [apply Qnot_le_lt | apply Qlt_not_le].
Qed.

Lemma Qgtb_false (x y : Q) : Qgtb x y = false ↔ (x <= y)%Q.
Proof. unfold Qgtb. by rewrite negb_false_iff, Qle_bool_iff. Qed.

Section Properties.

Context {State Action Piece PlayerId : Type}.
Context `{G : Game State Action Piece PlayerId}.

Local Abbreviation Self := (MyPlayer PlayerId).

(** ** The depth scheduler *)

Lemma get_dynamic_depth_succ (self : Self) (t : Q) :
  ∃ d, get_dynamic_depth self t = S d.
Proof.
  unfold get_dynamic_depth. destruct (Qgtb t 600), (Qgtb t 300); eauto.
Qed.

(** C2: [get_dynamic_depth] is the three-tier step function of the
    remaining time: 3 above 600, 2 above 300 and up to 600, 1 up to 300;
    the five boundary values are as listed and the depth is at least 1. *)
Theorem get_dynamic_depth_tiers (self : Self) (t : Q) :
  ((600 < t)%Q → get_dynamic_depth self t = 3) ∧
  ((300 < t)%Q ∧ (t <= 600)%Q → get_dynamic_depth self t = 2) ∧
  ((t <= 300)%Q → get_dynamic_depth self t = 1) ∧
  1 ≤ get_dynamic_depth self t ∧
  get_dynamic_depth self 601 = 3 ∧
  get_dynamic_depth self 600 = 2 ∧
  get_dynamic_depth self 301 = 2 ∧
  get_dynamic_depth self 300 = 1 ∧
  get_dynamic_depth self 0 = 1.
Proof.
  unfold get_dynamic_depth. repeat split; try reflexivity.
  - intros Ht. apply Qgtb_true in Ht. by rewrite Ht.
  - intros [Hlo Hhi]. apply Qgtb_true in Hlo. apply Qgtb_false in Hhi.
    by rewrite Hhi, Hlo.
  - intros Ht. assert (Qgtb t 300 = false) as H3 by by apply Qgtb_false.
    assert (Qgtb t 600 = false) as H6.
    { apply Qgtb_false. eapply Qle_trans; [exact Ht | discriminate]. }
    by rewrite H6, H3.
  - destruct (Qgtb t 600), (Qgtb t 300); lia.
Qed.

(** ** The formation counter *)

Lemma count_row (p : Z → bool) (l : list Z) (count : Z) :
  foldl (fun count j => if p j then (count + 1)%Z else count) count l
  = (count + Z.of_nat (length (filter (fun j => p j = true) l)))%Z.
Proof.
  revert count. induction l as [|j l IH]; intros count; simpl.
  - lia.
  - rewrite IH, filter_cons. destruct (p j) eqn:Hp.
    + rewrite decide_True by done. simpl. lia.
    + rewrite decide_False by congruence. lia.
Qed.

Lemma count_rows (p : Z * Z → bool) (rows cols : list Z) (count : Z) :
  foldl (fun count i =>
    foldl (fun count j => if p (i, j) then (count + 1)%Z else count)
      count cols) count rows
  = (count + Z.of_nat (length (filter (fun c => p c = true)
                                 (i ← rows; j ← cols; [(i, j)]))))%Z.
Proof.
  revert count. induction rows as [|i rows IH]; intros count.
  - simpl. lia.
  - cbn [foldl]. rewrite IH, (count_row (fun j => p (i, j))).
    rewrite bind_cons, filter_app, length_app.
    assert (length (filter (fun j => p (i, j) = true) cols)
            = length (filter (fun c => p c = true) (j ← cols; [(i, j)])))
      as ->; [|lia].
    clear. induction cols as [|j cols IH]; [done|].
    rewrite bind_cons. cbn [app]. rewrite !filter_cons.
    destruct (decide (p (i, j) = true)); simpl; lia.
Qed.

Lemma counts_cell_formation (state : State) (player_id : PlayerId) c :
  counts_cell state player_id c = true ↔ formation_cell state player_id c.
Proof.
  unfold counts_cell, formation_cell. split.
  - destruct (in_board state c); [|done].
    destruct (get_env state !! c) as [piece|]; [|done].
    intros [Ho Hc]%andb_true_iff. apply bool_decide_eq_true in Ho. eauto.
  - intros [-> (piece & -> & Ho & ->)]. by rewrite bool_decide_eq_true_2.
Qed.

#[global] Instance formation_cell_dec state player_id c :
  Decision (formation_cell state player_id c).
Proof.
  refine (cast_if (decide (counts_cell state player_id c = true)));
    by rewrite <- counts_cell_formation.
Defined.

Lemma count_divercite_potential_filter (self : Self) state player_id :
  count_divercite_potential self state player_id
  = Z.of_nat (length (filter (formation_cell state player_id) (cells state))).
Proof.
  unfold count_divercite_potential, cells.
  rewrite (count_rows (counts_cell state player_id)), Z.add_0_l.
  do 2 f_equal. apply list_filter_iff. intros c. apply counts_cell_formation.
Qed.

(** C7: the count is the number of cells of the board's extent that are
    on the playable board, occupied, owned by [player_id] and formation
    points; it is not negative; a cell whose piece has another owner
    adds nothing, so a board none of whose pieces is owned by
    [player_id] counts 0, and so does a board without pieces. *)
Theorem count_divercite_potential_spec (self : Self) (state : State)
    (player_id : PlayerId) :
  count_divercite_potential self state player_id
  = Z.of_nat (length (filter (formation_cell state player_id) (cells state)))
  ∧ (0 ≤ count_divercite_potential self state player_id)%Z
  ∧ (∀ c piece, get_env state !! c = Some piece →
                get_owner_id piece ≠ player_id →
                counts_cell state player_id c = false)
  ∧ ((∀ c piece, get_env state !! c = Some piece →
                 get_owner_id piece ≠ player_id) →
     count_divercite_potential self state player_id = 0%Z)
  ∧ (get_env state = ∅ →
     count_divercite_potential self state player_id = 0%Z).
Proof.
  rewrite count_divercite_potential_filter.
  assert ((∀ c piece, get_env state !! c = Some piece →
                      get_owner_id piece ≠ player_id) →
          filter (formation_cell state player_id) (cells state) = [])
    as Hnone.
  { intros Hown. induction (cells state) as [|c l IH]; [done|].
    rewrite filter_cons_False; [done|].
    intros [_ (piece & Hp & Ho & _)]. by eapply Hown. }
  repeat split.
  - lia.
  - intros c piece Hp Ho. unfold counts_cell. rewrite Hp.
    destruct (in_board state c); [|done]. by rewrite bool_decide_eq_false_2.
  - intros Hown. by rewrite Hnone.
  - intros Hempty. rewrite Hnone; [done|].
    intros c piece. by rewrite Hempty, lookup_empty.
Qed.

(** ** The heuristic evaluator *)

Lemma first_other_two (id opponent : PlayerId) (l : list PlayerId) :
  opponent ≠ id → l = [id; opponent] ∨ l = [opponent; id] →
  first_other id l = Some opponent.
Proof.
  intros Hne [-> | ->]; simpl.
  - rewrite decide_False by (intros Hid; by apply Hid).
    by rewrite decide_True.
  - by rewrite decide_True.
Qed.

(** C4: with the agent and one opponent as the two players and a score
    for each, [evaluate_state] is the score difference plus 5 times the
    difference of the two formation counts, as an integer without bound. *)
Theorem evaluate_state_formula (self : Self) (state : State)
    (opponent : PlayerId) (player_score opponent_score : Z) :
  opponent ≠ get_id self →
  players state = [get_id self; opponent] ∨
  players state = [opponent; get_id self] →
  scores state !! get_id self = Some player_score →
  scores state !! opponent = Some opponent_score →
  evaluate_state self state
  = Some ((player_score - opponent_score)
          + 5 * (count_divercite_potential self state (get_id self)
                 - count_divercite_potential self state opponent))%Z.
Proof.
  intros Hne Hplayers Hme Hopp. unfold evaluate_state, get_opponent_id.
  rewrite Hme, (first_other_two _ opponent) by done. simpl.
  rewrite Hopp. simpl. f_equal. lia.
Qed.

(** ** The search at a cutoff *)

(** C5: at depth 0, or on a state that reports the game finished,
    [minimax] returns the heuristic value of the state and no move,
    whatever the window and the player flag. *)
Theorem minimax_cutoff (self : Self) (state : State) (depth : nat)
    (alpha beta : value) (maximizing_player : bool) :
  depth = 0 ∨ is_done state = true →
  minimax self state depth alpha beta maximizing_player
  = (v ← evaluate_state self state; Some (Fin v, None)).
Proof.
  intros [-> | Hdone]; [done|].
  destruct depth; simpl; [done|]. by rewrite Hdone.
Qed.

(** ** The controller *)

Lemma compute_action_outcome search (self : Self) (state : State)
    (remaining_time : Q) (clock : Q * Q) :
  (compute_action_with search self state remaining_time clock).2
  = match search self state (chosen_depth self) NegInf PosInf true with
    | None => Raise KeyError
    | Some (_, Some a) =>
        if bool_decide (a ∈ generate_possible_light_actions state)
        then Return a else Raise MethodNotImplementedError
    | Some (_, None) => Raise MethodNotImplementedError
    end.
Proof.
  unfold compute_action_with, chosen_depth.
  destruct (search _ _ _ _ _ _) as [[v [a|]]|]; [|done..].
  by destruct (bool_decide _).
Qed.

(** C3: when the search returns, the controller raises the "no valid
    action" error exactly when the returned move is not a member of the
    state's legal moves; a member is returned as it is; and a move that
    the controller returns is the one the search gave, so the error path
    yields no substitute. *)
Theorem compute_action_validates search (self : Self) (state : State)
    (remaining_time : Q) (clock : Q * Q) (v : value) (move : option Action) :
  search self state (chosen_depth self) NegInf PosInf true = Some (v, move) →
  let result :=
    (compute_action_with search self state remaining_time clock).2 in
  (result = Raise MethodNotImplementedError ↔ ¬ is_legal state move) ∧
  (∀ a, move = Some a → a ∈ generate_possible_light_actions state →
        result = Return a) ∧
  (∀ a, result = Return a → move = Some a) ∧
  (is_legal state move ∨ result = Raise MethodNotImplementedError).
Proof.
  intros Hsearch result. subst result.
  rewrite compute_action_outcome, Hsearch. unfold is_legal.
  destruct move as [a|].
  - destruct (bool_decide_reflect
                (a ∈ generate_possible_light_actions state)) as [Hin|Hout].
    + split_and!.
      * split; [done|]. intros Hn. destruct Hn. eauto.
      * by intros a' [= ->].
      * by intros a' [= ->].
      * left. eauto.
    + split_and!.
      * split; [|done]. by intros _ (a' & [= <-] & Hin).
      * by intros a' [= <-] Hin.
      * done.
      * by right.
  - split_and!; [|done|done|by right].
    split; [|done]. by intros _ (a' & [=] & _).
Qed.

(** C9: the outcome and the updated agent do not depend on the
    [remaining_time] argument; the depth searched is the one the
    scheduler gives for [total_time_budget - time_used]. *)
Theorem compute_action_ignores_remaining_time (self : Self) (state : State)
    (t1 t2 : Q) (clock : Q * Q) :
  compute_action self state t1 clock = compute_action self state t2 clock ∧
  (compute_action self state t1 clock).2
  = match minimax self state
            (get_dynamic_depth self (total_time_budget self - time_used self))
            NegInf PosInf true with
    | None => Raise KeyError
    | Some (_, Some a) =>
        if bool_decide (a ∈ generate_possible_light_actions state)
        then Return a else Raise MethodNotImplementedError
    | Some (_, None) => Raise MethodNotImplementedError
    end.
Proof.
  split; [reflexivity|]. unfold compute_action.
  by rewrite compute_action_outcome.
Qed.

(** C10: when the root search returns no move, the controller raises the
    "no valid action" error and returns no move; this is the case of a
    finished state whose evaluation succeeds and of an unfinished state
    without legal moves. *)
Theorem compute_action_no_move (self : Self) (state : State)
    (remaining_time : Q) (clock : Q * Q) :
  let result := (compute_action self state remaining_time clock).2 in
  ((∃ v, minimax self state (chosen_depth self) NegInf PosInf true
         = Some (v, None)) →
   result = Raise MethodNotImplementedError) ∧
  (is_done state = true → is_Some (evaluate_state self state) →
   result = Raise MethodNotImplementedError) ∧
  (is_done state = false → generate_possible_light_actions state = [] →
   result = Raise MethodNotImplementedError) ∧
  (is_done state = true ∨ generate_possible_light_actions state = [] →
   ∀ a, result ≠ Return a).
Proof.
  intros result. subst result. unfold compute_action.
  rewrite compute_action_outcome.
  destruct (get_dynamic_depth_succ self
              (total_time_budget self - time_used self)) as [d Hd].
  fold (chosen_depth self) in Hd.
  repeat split.
  - by intros [v ->].
  - intros Hdone [v Hv]. rewrite minimax_cutoff by auto. by rewrite Hv.
  - intros Hdone Hmoves. rewrite Hd. simpl. by rewrite Hdone, Hmoves.
  - intros [Hdone | Hmoves] a.
    + rewrite minimax_cutoff by auto.
      by destruct (evaluate_state self state).
    + rewrite Hd. simpl. rewrite Hmoves.
      destruct (is_done state); [|done].
      by destruct (evaluate_state self state).
Qed.

(** ** The time accumulator *)

Lemma step_returned (self : Self) (c : call State) :
  is_Some (minimax self (call_state c) (chosen_depth self)
             NegInf PosInf true) →
  step self c
  = {| get_id := get_id self;
       time_used := (time_used self + duration c)%Q;
       total_time_budget := total_time_budget self |}.
Proof.
  intros [[v move] Hr]. unfold step, compute_action, compute_action_with.
  fold (chosen_depth self). rewrite Hr.
  destruct move as [a|]; [|done]. by destruct (bool_decide _).
Qed.

Lemma step_raised (self : Self) (c : call State) :
  minimax self (call_state c) (chosen_depth self) NegInf PosInf true = None →
  step self c = self.
Proof.
  intros Hr. unfold step, compute_action, compute_action_with.
  fold (chosen_depth self). by rewrite Hr.
Qed.

Lemma run_total (self : Self) (calls : list (call State)) :
  searches_return self calls →
  (time_used (run self calls)
   == time_used self + total (duration <$> calls))%Q.
Proof.
  revert self. induction calls as [|c calls IH]; intros self.
  - intros _. simpl. ring.
  - intros [Hc Hrest]. rewrite fmap_cons.
    change (run self (c :: calls)) with (run (step self c) calls).
    change (total (duration c :: (duration <$> calls)))
      with (duration c + total (duration <$> calls))%Q.
    rewrite (IH _ Hrest), (step_returned _ _ Hc). simpl. ring.
Qed.

Lemma total_nonneg (l : list Q) : Forall (Qle 0) l → (0 <= total l)%Q.
Proof.
  induction 1 as [|d l Hd _ IH]; simpl; [apply Qle_refl|].
  replace 0%Q with (0 + 0)%Q by reflexivity. by apply Qplus_le_compat.
Qed.

Lemma run_fold (self : Self) (calls : list (call State)) :
  searches_return self calls →
  time_used (run self calls)
  = foldl (fun t c => (t + duration c)%Q) (time_used self) calls.
Proof.
  revert self. induction calls as [|c calls IH]; intros self; [done|].
  intros [Hc Hrest].
  change (run self (c :: calls)) with (run (step self c) calls).
  rewrite (IH _ Hrest), (step_returned _ _ Hc). done.
Qed.

(** C8, as the code has it: along calls whose searches return, each call
    adds to [time_used] the duration measured around its search (the
    reading after the search minus the reading before it), once; after
    the calls, [time_used] is what it was (0 for a new agent: it is never
    reset) with the measured durations added one after another, in the
    order of the calls; and it has not decreased at any point when no
    measured duration is negative.  A search that raises measures nothing
    and leaves the agent as it was. *)
Theorem time_used_accumulates (self : Self) (calls : list (call State)) :
  searches_return self calls →
  time_used (run self calls)
  = foldl (fun t c => (t + duration c)%Q) (time_used self) calls ∧
  (∀ id, self = init id →
         time_used (run self calls)
         = foldl (fun t c => (t + duration c)%Q) 0%Q calls) ∧
  (∀ before c after, calls = before ++ c :: after →
     time_used (run self (before ++ [c]))
     = (time_used (run self before) + duration c)%Q) ∧
  (Forall (fun c => (0 <= duration c)%Q) calls →
   ∀ before after, calls = before ++ after →
     (time_used (run self before) <= time_used (run self calls))%Q) ∧
  (∀ c, minimax self (call_state c) (chosen_depth self) NegInf PosInf true
        = None → run self [c] = self).
Proof.
  intros Hret.
  assert (∀ before after, calls = before ++ after →
            searches_return self before ∧
            searches_return (run self before) after) as Hsplit.
  { intros before. revert self calls Hret.
    induction before as [|b before IH]; intros self calls Hret after ->.
    - done.
    - destruct Hret as [Hb Hrest]. simpl.
      destruct (IH _ _ Hrest after eq_refl) as [H1 H2]. done. }
  split_and!.
  - by apply run_fold.
  - intros id ->. by rewrite run_fold.
  - intros before c after Heq.
    destruct (Hsplit before (c :: after) Heq) as [_ [Hc _]].
    unfold run in *. rewrite foldl_app. simpl.
    by rewrite (step_returned _ _ Hc).
  - intros Hpos before after Heq.
    destruct (Hsplit before after Heq) as [_ Hafter].
    subst calls. unfold run at 2. rewrite foldl_app.
    fold (run self before). fold (run (run self before) after).
    rewrite (run_total _ _ Hafter).
    apply Forall_app in Hpos as [_ Hpos].
    assert (0 <= total (duration <$> after))%Q as Hsum.
    { apply total_nonneg. by apply Forall_fmap. }
    rewrite <- (Qplus_0_r (time_used (run self before))) at 1.
    by apply Qplus_le_compat; [apply Qle_refl|].
  - intros c Hc. unfold run. simpl. by apply step_raised.
Qed.

(** ** Alpha-beta pruning against exhaustive search *)

Section Pruning.

Variable rec : State → value → value → option (value * option Action).
Variable exact : State → option value.
Variable state : State.

Hypothesis rec_bounded : ∀ s a b e,
  exact s = Some e → ∃ r, rec s a b = Some r ∧ bounded a b r.1 e.

Lemma max_loop_bounded (beta : value) (actions : list Action) :
  ∀ (es : list value) (st : loop_state),
    mapM (fun a => exact (apply_action state a)) actions = Some es →
    ∃ v move,
      max_loop rec state beta actions st = Some (v, move) ∧
      st.1.1 ≤v v ∧
      (st.1.1 <v v → st.2 <v v → v ≤v foldr Value.max NegInf es) ∧
      (v <v beta → foldr Value.max NegInf es ≤v v).
Proof.
  induction actions as [|action rest IH]; intros es st Hes.
  - injection Hes as <-. exists st.1.1, st.1.2. split_and!; simpl.
    + done.
    + apply ValueFacts.le_refl.
    + intros Hlt. by rewrite ValueFacts.le_refl in Hlt.
    + intros _. apply ValueFacts.neg_inf_le.
  - apply mapM_Some in Hes.
    apply Forall2_cons_inv_l in Hes as (e1 & es' & He1 & Hes' & ->).
    apply mapM_Some in Hes'.
    destruct st as [[m best] al].
    destruct (rec_bounded _ al beta _ He1) as ([w move1] & Hr & Hlo & Hhi).
    cbn [max_loop fst snd]. rewrite Hr.
    cbn [mbind option_bind fst snd max_step] in *.
    unfold Value.gtb, Value.geb.
    destruct (m <?v w) eqn:Hmw; cbn [fst snd].
    + destruct (w <?v beta) eqn:Hwb; cbn [negb].
      * destruct (IH es' (w, Some action, w) Hes')
          as (v & move & Hloop & Hwv & Hup & Hdown).
        cbn [fst snd] in *. exists v, move. split_and!.
        -- done.
        -- eauto using ValueFacts.lt_le, ValueFacts.le_trans.
        -- intros _ Hal. cbn [foldr].
           destruct (ValueFacts.le_cases _ _ Hwv) as [Hlt | <-].
           ++ apply ValueFacts.le_max_r. by apply Hup.
           ++ apply ValueFacts.le_max_l. by apply Hlo.
        -- intros Hvb. cbn [foldr]. apply ValueFacts.max_le.
           ++ eapply ValueFacts.le_trans; [by apply Hhi | done].
           ++ by apply Hdown.
      * exists w, (Some action). split_and!.
        -- done.
        -- by apply ValueFacts.lt_le.
        -- intros _ Hal. cbn [foldr]. apply ValueFacts.le_max_l.
           by apply Hlo.
        -- intros Hlt. congruence.
    + destruct (m <?v beta) eqn:Hmb; cbn [negb].
      * destruct (IH es' (m, best, al) Hes')
          as (v & move & Hloop & Hmv & Hup & Hdown).
        cbn [fst snd] in *. exists v, move. split_and!.
        -- done.
        -- done.
        -- intros Hlt Hal. cbn [foldr]. apply ValueFacts.le_max_r.
           by apply Hup.
        -- intros Hvb. cbn [foldr]. apply ValueFacts.max_le.
           ++ eapply ValueFacts.le_trans; [apply Hhi | ].
              ** eapply ValueFacts.le_lt_trans; [exact Hmw|].
                 eapply ValueFacts.le_lt_trans; [exact Hmv | exact Hvb].
              ** eapply ValueFacts.le_trans; [exact Hmw | exact Hmv].
           ++ by apply Hdown.
      * exists m, best. split_and!.
        -- done.
        -- apply ValueFacts.le_refl.
        -- intros Hlt. by rewrite ValueFacts.le_refl in Hlt.
        -- intros Hlt. congruence.
Qed.

Lemma min_loop_bounded (alpha : value) (actions : list Action) :
  ∀ (es : list value) (st : loop_state),
    mapM (fun a => exact (apply_action state a)) actions = Some es →
    ∃ v move,
      min_loop rec state alpha actions st = Some (v, move) ∧
      v ≤v st.1.1 ∧
      (v <v st.1.1 → v <v st.2 → foldr Value.min PosInf es ≤v v) ∧
      (alpha <v v → v ≤v foldr Value.min PosInf es).
Proof.
  induction actions as [|action rest IH]; intros es st Hes.
  - injection Hes as <-. exists st.1.1, st.1.2. split_and!; simpl.
    + done.
    + apply ValueFacts.le_refl.
    + intros Hlt. by rewrite ValueFacts.le_refl in Hlt.
    + by intros _.
  - apply mapM_Some in Hes.
    apply Forall2_cons_inv_l in Hes as (e1 & es' & He1 & Hes' & ->).
    apply mapM_Some in Hes'.
    destruct st as [[m best] bt].
    destruct (rec_bounded _ alpha bt _ He1) as ([w move1] & Hr & Hlo & Hhi).
    cbn [min_loop fst snd]. rewrite Hr.
    cbn [mbind option_bind fst snd min_step] in *.
    unfold Value.leb.
    destruct (w <?v m) eqn:Hwm; cbn [fst snd].
    + destruct (alpha <?v w) eqn:Haw; cbn [negb].
      * destruct (IH es' (w, Some action, w) Hes')
          as (v & move & Hloop & Hvw & Hdown & Hup).
        cbn [fst snd] in *. exists v, move. split_and!.
        -- done.
        -- eauto using ValueFacts.lt_le, ValueFacts.le_trans.
        -- intros _ Hbt. cbn [foldr].
           destruct (ValueFacts.le_cases _ _ Hvw) as [Hlt | ->].
           ++ apply ValueFacts.min_le_r. by apply Hdown.
           ++ apply ValueFacts.min_le_l. by apply Hhi.
        -- intros Hav. cbn [foldr]. apply ValueFacts.le_min.
           ++ eapply ValueFacts.le_trans; [exact Hvw | by apply Hlo].
           ++ by apply Hup.
      * exists w, (Some action). split_and!.
        -- done.
        -- by apply ValueFacts.lt_le.
        -- intros _ Hbt. cbn [foldr]. apply ValueFacts.min_le_l.
           by apply Hhi.
        -- intros Hlt. congruence.
    + destruct (alpha <?v m) eqn:Ham; cbn [negb].
      * destruct (IH es' (m, best, bt) Hes')
          as (v & move & Hloop & Hvm & Hdown & Hup).
        cbn [fst snd] in *. exists v, move. split_and!.
        -- done.
        -- done.
        -- intros Hlt Hbt. cbn [foldr]. apply ValueFacts.min_le_r.
           by apply Hdown.
        -- intros Hav. cbn [foldr]. apply ValueFacts.le_min.
           ++ assert (v ≤v w) as Hvw
                by (eapply ValueFacts.le_trans; [exact Hvm | exact Hwm]).
              eapply ValueFacts.le_trans; [exact Hvw | apply Hlo].
              eapply ValueFacts.lt_le_trans; [exact Hav | exact Hvw].
           ++ by apply Hup.
      * exists m, best. split_and!.
        -- done.
        -- apply ValueFacts.le_refl.
        -- intros Hlt. by rewrite ValueFacts.le_refl in Hlt.
        -- intros Hlt. congruence.
Qed.

End Pruning.

Lemma bounded_refl (alpha beta v : value) : bounded alpha beta v v.
Proof. split; intros _; apply ValueFacts.le_refl. Qed.

Lemma bounded_root (v e : value) : bounded NegInf PosInf v e → v = e.
Proof.
  intros [Hlo Hhi].
  destruct v, e; simpl in *; try reflexivity;
    try (by specialize (Hhi eq_refl)); try (by specialize (Hlo eq_refl)).
  specialize (Hlo eq_refl). specialize (Hhi eq_refl).
  apply Z.ltb_ge in Hlo, Hhi. f_equal. lia.
Qed.

(** At any window, the pruned search returns whenever the exhaustive one
    does, and its value is [bounded] by the exhaustive value. *)
Lemma minimax_bounded (self : Self) (depth : nat) :
  ∀ (state : State) (alpha beta : value) (maximizing_player : bool)
    (e : value),
    minimax_exhaustive self state depth maximizing_player = Some e →
    ∃ v move,
      minimax self state depth alpha beta maximizing_player = Some (v, move)
      ∧ bounded alpha beta v e.
Proof.
  induction depth as [|depth IH]; intros state alpha beta mp e.
  - simpl. destruct (evaluate_state self state) as [z|]; [|done].
    intros [= <-]. eauto using bounded_refl.
  - simpl. destruct (is_done state).
    { destruct (evaluate_state self state) as [z|]; [|done].
      intros [= <-]. eauto using bounded_refl. }
    destruct (mapM _ _) as [es|] eqn:Hes; [|done]. simpl. intros [= <-].
    assert (∀ flag s a b e,
              minimax_exhaustive self s depth flag = Some e →
              ∃ r, minimax self s depth a b flag = Some r ∧ bounded a b r.1 e)
      as Hrec.
    { intros flag s a b e He.
      destruct (IH s a b flag e He) as (v & move & -> & Hb). eauto. }
    destruct mp; simpl in Hes.
    + destruct (max_loop_bounded _ _ state (Hrec false) beta _ es
                  (NegInf, None, alpha) Hes)
        as (v & move & -> & _ & Hlo & Hhi).
      cbn [fst snd] in *. exists v, move. split; [done|]. split; [|done].
      intros Hav. apply Hlo; [|done]. by eapply ValueFacts.neg_inf_lt.
    + destruct (min_loop_bounded _ _ state (Hrec true) alpha _ es
                  (PosInf, None, beta) Hes)
        as (v & move & -> & _ & Hhi & Hlo).
      cbn [fst snd] in *. exists v, move. split; [done|]. split; [done|].
      intros Hvb. apply Hhi; [|done]. by eapply ValueFacts.lt_pos_inf.
Qed.

(** When every state can be evaluated, the exhaustive search returns. *)
Lemma minimax_exhaustive_total (self : Self) :
  (∀ s, is_Some (evaluate_state self s)) →
  ∀ depth state flag, is_Some (minimax_exhaustive self state depth flag).
Proof.
  intros Heval. induction depth as [|depth IH]; intros state flag; simpl.
  - by apply fmap_is_Some.
  - destruct (is_done state); [by apply fmap_is_Some|].
    destruct (mapM _ _) as [es|] eqn:Hes; [by eexists|].
    apply mapM_None in Hes. apply Exists_exists in Hes as (a & _ & Ha).
    destruct (IH (apply_action state a) (negb flag)) as [e He]. congruence.
Qed.

(** C1: from the root window [(-inf, +inf)] with the maximizing player to
    move, the value returned by [minimax] is the value of exhaustive
    depth-limited minimax on the same state at the same depth: whenever
    the exhaustive search returns a value, the pruned search returns that
    value. *)
Theorem minimax_root_value (self : Self) (state : State) (depth : nat)
    (e : value) :
  minimax_exhaustive self state depth true = Some e →
  ∃ move, minimax self state depth NegInf PosInf true = Some (e, move).
Proof.
  intros He.
  destruct (minimax_bounded self depth state NegInf PosInf true e He)
    as (v & move & Hv & Hlo & Hhi).
  exists move. rewrite Hv. do 2 f_equal. by apply bounded_root.
Qed.

(** ** Which move the search returns *)

Lemma earliest_here (tr : list (Action * value)) (a : Action) (v : value) :
  earliest_with ((a, v) :: tr) v (Some a).
Proof. by exists [], a, tr. Qed.

Lemma earliest_later (tr : list (Action * value)) (a : Action)
    (w v : value) (move : option Action) :
  w ≠ v → earliest_with tr v move → earliest_with ((a, w) :: tr) v move.
Proof.
  intros Hne (pre & a' & post & -> & -> & Hpre).
  exists ((a, w) :: pre), a', post. split_and!; [done..|]. by constructor.
Qed.

Lemma lt_ne (x y : value) : x <v y → x ≠ y.
Proof. intros Hlt ->. by rewrite ValueFacts.le_refl in Hlt. Qed.

Section Choice.

Variable rec : State → value → value → option (value * option Action).
Variable state : State.

Lemma max_loop_choice (beta : value) (actions : list Action) :
  ∀ (st : loop_state) (v : value) (move : option Action),
    max_loop rec state beta actions st = Some (v, move) →
    ∃ tr,
      max_trace rec state beta actions st = Some tr ∧
      tr.*1 `prefix_of` actions ∧
      Forall (fun p => p.2 ≤v v) tr ∧
      st.1.1 ≤v v ∧
      (st.1.1 <v v → earliest_with tr v move) ∧
      (v = st.1.1 → move = st.1.2).
Proof.
  induction actions as [|action rest IH]; intros st v move.
  - intros [= <- <-]. exists []. split_and!; try done.
    + apply ValueFacts.le_refl.
    + intros Hlt. by rewrite ValueFacts.le_refl in Hlt.
  - destruct st as [[m best] al]. cbn [max_loop max_trace fst snd].
    destruct (rec _ al beta) as [[w move1]|]; [|done].
    cbn [mbind option_bind fst snd max_step].
    unfold Value.gtb, Value.geb.
    destruct (m <?v w) eqn:Hmw; cbn [fst snd].
    + destruct (w <?v beta) eqn:Hwb; cbn [negb].
      * intros Hloop.
        destruct (IH _ _ _ Hloop) as (tr & -> & Hpre & Hall & Hwv & He & Hs).
        cbn [fst snd] in *. exists ((action, w) :: tr). split_and!.
        -- done.
        -- rewrite fmap_cons. by apply prefix_cons.
        -- by constructor.
        -- eauto using ValueFacts.lt_le, ValueFacts.le_trans.
        -- intros _. destruct (ValueFacts.le_cases _ _ Hwv) as [Hlt | ->].
           ++ apply earliest_later; [by apply lt_ne | by apply He].
           ++ rewrite Hs by done. apply earliest_here.
        -- intros ->. by rewrite Hwv in Hmw.
      * intros [= <- <-]. exists [(action, w)]. split_and!.
        -- done.
        -- apply prefix_cons, prefix_nil.
        -- repeat constructor. apply ValueFacts.le_refl.
        -- by apply ValueFacts.lt_le.
        -- intros _. apply earliest_here.
        -- intros ->. by rewrite ValueFacts.le_refl in Hmw.
    + destruct (m <?v beta) eqn:Hmb; cbn [negb].
      * intros Hloop.
        destruct (IH _ _ _ Hloop) as (tr & -> & Hpre & Hall & Hmv & He & Hs).
        cbn [fst snd] in *. exists ((action, w) :: tr). split_and!.
        -- done.
        -- rewrite fmap_cons. by apply prefix_cons.
        -- constructor; [|done]. by eapply ValueFacts.le_trans.
        -- done.
        -- intros Hlt. apply earliest_later; [|by apply He].
           apply lt_ne. by eapply ValueFacts.le_lt_trans.
        -- done.
      * intros [= <- <-]. exists [(action, w)]. split_and!.
        -- done.
        -- apply prefix_cons, prefix_nil.
        -- by repeat constructor.
        -- apply ValueFacts.le_refl.
        -- intros Hlt. by rewrite ValueFacts.le_refl in Hlt.
        -- done.
Qed.

Lemma min_loop_choice (alpha : value) (actions : list Action) :
  ∀ (st : loop_state) (v : value) (move : option Action),
    min_loop rec state alpha actions st = Some (v, move) →
    ∃ tr,
      min_trace rec state alpha actions st = Some tr ∧
      tr.*1 `prefix_of` actions ∧
      Forall (fun p => v ≤v p.2) tr ∧
      v ≤v st.1.1 ∧
      (v <v st.1.1 → earliest_with tr v move) ∧
      (v = st.1.1 → move = st.1.2).
Proof.
  induction actions as [|action rest IH]; intros st v move.
  - intros [= <- <-]. exists []. split_and!; try done.
    + apply ValueFacts.le_refl.
    + intros Hlt. by rewrite ValueFacts.le_refl in Hlt.
  - destruct st as [[m best] bt]. cbn [min_loop min_trace fst snd].
    destruct (rec _ alpha bt) as [[w move1]|]; [|done].
    cbn [mbind option_bind fst snd min_step].
    unfold Value.leb.
    destruct (w <?v m) eqn:Hwm; cbn [fst snd].
    + destruct (alpha <?v w) eqn:Haw; cbn [negb].
      * intros Hloop.
        destruct (IH _ _ _ Hloop) as (tr & -> & Hpre & Hall & Hvw & He & Hs).
        cbn [fst snd] in *. exists ((action, w) :: tr). split_and!.
        -- done.
        -- rewrite fmap_cons. by apply prefix_cons.
        -- by constructor.
        -- eauto using ValueFacts.lt_le, ValueFacts.le_trans.
        -- intros _. destruct (ValueFacts.le_cases _ _ Hvw) as [Hlt | <-].
           ++ apply earliest_later; [|by apply He].
              intros ->. by rewrite ValueFacts.le_refl in Hlt.
           ++ rewrite Hs by done. apply earliest_here.
        -- intros ->. by rewrite Hvw in Hwm.
      * intros [= <- <-]. exists [(action, w)]. split_and!.
        -- done.
        -- apply prefix_cons, prefix_nil.
        -- repeat constructor. apply ValueFacts.le_refl.
        -- by apply ValueFacts.lt_le.
        -- intros _. apply earliest_here.
        -- intros ->. by rewrite ValueFacts.le_refl in Hwm.
    + destruct (alpha <?v m) eqn:Ham; cbn [negb].
      * intros Hloop.
        destruct (IH _ _ _ Hloop) as (tr & -> & Hpre & Hall & Hvm & He & Hs).
        cbn [fst snd] in *. exists ((action, w) :: tr). split_and!.
        -- done.
        -- rewrite fmap_cons. by apply prefix_cons.
        -- constructor; [|done]. by eapply ValueFacts.le_trans.
        -- done.
        -- intros Hlt. apply earliest_later; [|by apply He].
           intros ->. assert (v <v v) as Hvv
             by by eapply ValueFacts.lt_le_trans.
           by rewrite ValueFacts.le_refl in Hvv.
        -- done.
      * intros [= <- <-]. exists [(action, w)]. split_and!.
        -- done.
        -- apply prefix_cons, prefix_nil.
        -- by repeat constructor.
        -- apply ValueFacts.le_refl.
        -- intros Hlt. by rewrite ValueFacts.le_refl in Hlt.
        -- done.
Qed.

End Choice.

(** C6, as the code has it: at a node that enters a loop, the moves
    explored are a prefix of the generator's enumeration; the best move
    is replaced only when a value is strictly better than the running
    best; and when the returned value is not the value the loop started
    from ([-inf] when maximizing, [+inf] when minimizing), the returned
    move is the earliest explored move whose recursive value is the
    returned value. *)
Theorem minimax_earliest_best (self : Self) (state : State) (depth' : nat)
    (alpha beta : value) (maximizing_player : bool) (v : value)
    (move : option Action) :
  is_done state = false →
  minimax self state (S depth') alpha beta maximizing_player
  = Some (v, move) →
  (∃ tr,
     explored self state depth' alpha beta maximizing_player = Some tr ∧
     tr.*1 `prefix_of` generate_possible_light_actions state ∧
     (v ≠ sentinel maximizing_player → earliest_with tr v move)) ∧
  (∀ st (a : Action) w, (w >?v st.1.1) = false → max_step st a w = st) ∧
  (∀ st (a : Action) w, (w <?v st.1.1) = false → min_step st a w = st).
Proof.
  intros Hdone. simpl. rewrite Hdone. intros Hloop. split_and!.
  - unfold explored. destruct maximizing_player.
    + destruct (max_loop_choice _ _ _ _ _ _ _ Hloop)
        as (tr & Htr & Hpre & _ & _ & He & Hs).
      exists tr. split_and!; [done..|].
      intros Hne. apply He. simpl in *. by destruct v.
    + destruct (min_loop_choice _ _ _ _ _ _ _ Hloop)
        as (tr & Htr & Hpre & _ & _ & He & Hs).
      exists tr. split_and!; [done..|].
      intros Hne. apply He. simpl in *. by destruct v.
  - intros [[m best] al] a w Hw. simpl in *. by rewrite Hw.
  - intros [[m best] bt] a w Hw. simpl in *. by rewrite Hw.
Qed.

End Properties.

(** * The properties on the concrete rules engine *)

(** The pruned and the exhaustive search agree on [Tree.small]. *)
Lemma minimax_root_value_witness :
  minimax_exhaustive Tree.me Tree.small 2 true = Some (Fin 3) ∧
  ∃ move, minimax Tree.me Tree.small 2 NegInf PosInf true
          = Some (Fin 3, move).
Proof.
  split; [vm_compute; reflexivity|].
  apply (minimax_root_value Tree.me Tree.small 2 (Fin 3)).
  vm_compute; reflexivity.
Defined.

(** Three plies: the second branch of the root is cut off after one
    successor, and the values agree. *)
Example deep_search :
  minimax Tree.me Tree.deep 3 NegInf PosInf true = Some (Fin 6, Some 0) ∧
  explored Tree.me Tree.deep 2 NegInf PosInf true
  = Some [(0, Fin 6); (1, Fin 3)] ∧
  minimax_exhaustive Tree.me Tree.deep 3 true = Some (Fin 6).
Proof. split_and!; vm_compute; reflexivity. Qed.

(** Pruning can skip a position on which the evaluation raises: the
    exhaustive search raises where the pruned one returns. *)
Example pruning_skips_malformed_leaf :
  minimax_exhaustive Tree.me Tree.masked 2 true = None ∧
  minimax Tree.me Tree.masked 2 NegInf PosInf true = Some (Fin 5, Some 0).
Proof. split; vm_compute; reflexivity. Qed.

(** On [Tree.small] the search returns move 0, a legal move, and the
    controller returns it. *)
Lemma compute_action_validates_witness :
  minimax Tree.me Tree.small (chosen_depth Tree.me) NegInf PosInf true
  = Some (Fin 3, Some 0) ∧
  (compute_action_with minimax Tree.me Tree.small 0 (10, 12)%Q).2 = Return 0.
Proof.
  assert (minimax Tree.me Tree.small (chosen_depth Tree.me) NegInf PosInf true
          = Some (Fin 3, Some 0)) as Hsearch by (vm_compute; reflexivity).
  split; [exact Hsearch|].
  apply (compute_action_validates minimax Tree.me Tree.small 0 (10, 12)%Q
           (Fin 3) (Some 0) Hsearch); [reflexivity|].
  simpl. apply list_elem_of_here.
Defined.

(** A search stubbed to return an absent move makes the controller raise. *)
Example stubbed_search_raises :
  (compute_action_with Tree.stub Tree.me Tree.small 0 (10, 12)%Q).2
  = Raise MethodNotImplementedError.
Proof. vm_compute; reflexivity. Qed.

(** On [Tree.board]: 7 - 4 + 5 * (2 - 1). *)
Lemma evaluate_state_formula_witness :
  evaluate_state Tree.me Tree.board = Some 8%Z.
Proof.
  rewrite (evaluate_state_formula Tree.me Tree.board 1 7 4).
  - vm_compute; reflexivity.
  - discriminate.
  - left; reflexivity.
  - vm_compute; reflexivity.
  - vm_compute; reflexivity.
Defined.

(** A finished position is evaluated at any depth and window. *)
Lemma minimax_cutoff_witness :
  is_done Tree.board = true ∧
  minimax Tree.me Tree.board 2 (Fin 1) (Fin 2) false = Some (Fin 8, None).
Proof.
  split; [reflexivity|].
  rewrite (minimax_cutoff Tree.me Tree.board 2 (Fin 1) (Fin 2) false).
  - vm_compute; reflexivity.
  - right; reflexivity.
Defined.

(** On [Tree.small] moves 0 and 2 both have value 3; move 0 is kept. *)
Lemma minimax_earliest_best_witness :
  is_done Tree.small = false ∧
  minimax Tree.me Tree.small 2 NegInf PosInf true = Some (Fin 3, Some 0) ∧
  earliest_with [(0, Fin 3); (1, Fin 2); (2, Fin 3)] (Fin 3) (Some 0).
Proof.
  assert (minimax Tree.me Tree.small 2 NegInf PosInf true
          = Some (Fin 3, Some 0)) as Hsearch by (vm_compute; reflexivity).
  assert (is_done Tree.small = false) as Hdone by reflexivity.
  split; [exact Hdone|]. split; [exact Hsearch|].
  destruct (minimax_earliest_best Tree.me Tree.small 1 NegInf PosInf true
              (Fin 3) (Some 0) Hdone Hsearch)
    as [(tr & Htr & _ & He) _].
  vm_compute in Htr. injection Htr as <-. apply He. discriminate.
Defined.

(** C6, counterexample: three plies above a position that is not
    finished and has no move, the maximizing root explores its only move,
    whose recursive value [-inf] is the value returned, and returns no
    move. *)
Lemma minimax_sentinel_tie :
  is_done Tree.line = false ∧
  generate_possible_light_actions Tree.line = [0] ∧
  minimax Tree.me Tree.line 3 NegInf PosInf true = Some (NegInf, None) ∧
  explored Tree.me Tree.line 2 NegInf PosInf true = Some [(0, NegInf)] ∧
  ¬ earliest_with [(0, NegInf)] NegInf None.
Proof.
  split_and!; try (vm_compute; reflexivity).
  intros (pre & a & post & _ & Hmove & _). discriminate Hmove.
Qed.

(** Two cycles of 2 and 5 seconds: 0 + 2 + 5 seconds used. *)
Lemma time_used_accumulates_witness :
  searches_return Tree.me Tree.cycles ∧
  time_used (run Tree.me Tree.cycles) = (0 + (12 - 10) + (25 - 20))%Q.
Proof.
  assert (searches_return Tree.me Tree.cycles) as Hret.
  { split; [eexists; vm_compute; reflexivity|].
    split; [eexists; vm_compute; reflexivity|exact I]. }
  split; [exact Hret|].
  destruct (time_used_accumulates Tree.me Tree.cycles Hret) as (Hfold & _).
  rewrite Hfold. reflexivity.
Defined.

(** C8, counterexample: when the clock is set back during a decision
    cycle whose search returns, the measured duration is negative and
    [time_used] decreases: from 0 to 0 + (3 - 5). *)
Lemma time_used_can_decrease :
  searches_return Tree.me Tree.rewound ∧
  time_used (run Tree.me Tree.rewound) = (0 + (3 - 5))%Q ∧
  ¬ (time_used Tree.me <= time_used (run Tree.me Tree.rewound))%Q.
Proof.
  split_and!.
  - split; [eexists; vm_compute; reflexivity | exact I].
  - vm_compute; reflexivity.
  - intros Hle. apply Qle_bool_iff in Hle. vm_compute in Hle. discriminate.
Qed.

(** A call whose search raises adds nothing to [time_used]. *)
Example raising_search_is_not_timed :
  compute_action Tree.me Tree.broken 0 (10, 12)%Q = (Tree.me, Raise KeyError).
Proof. vm_compute; reflexivity. Qed.

(** A finished position, and an unfinished one without moves, end in the
    "no valid action" error. *)
Example no_move_raises :
  (compute_action Tree.me Tree.board 0 (10, 12)%Q).2
  = Raise MethodNotImplementedError ∧
  (compute_action Tree.me Tree.stuck 0 (10, 12)%Q).2
  = Raise MethodNotImplementedError.
Proof. split; vm_compute; reflexivity. Qed.

(** The counter on the 2x2 board. *)
Example count_on_board :
  count_divercite_potential Tree.me Tree.board 0 = 2%Z ∧
  count_divercite_potential Tree.me Tree.board 1 = 1%Z.
Proof. split; vm_compute; reflexivity. Qed.

(** * Further properties of the code *)

Section Further.

Context {State Action Piece PlayerId : Type}.
Context `{G : Game State Action Piece PlayerId}.

Local Abbreviation Self := (MyPlayer PlayerId).

(** ** Resolving the opponent *)

Lemma first_other_some (id o : PlayerId) (l : list PlayerId) :
  first_other id l = Some o ↔
  o ≠ id ∧ ∃ pre post, l = pre ++ o :: post ∧ Forall (fun p => p = id) pre.
Proof.
  induction l as [|p l IH]; simpl.
  - split; [done|]. intros (_ & pre & post & Hl & _). by destruct pre.
  - destruct (decide (p ≠ id)) as [Hne | Heq].
    + split.
      * intros [= <-]. split; [done|]. by exists [], l.
      * intros (Ho & pre & post & Hl & Hpre). destruct pre as [|q pre].
        -- by injection Hl as ->.
        -- injection Hl as -> _. by apply Forall_cons_1 in Hpre as [? _].
    + apply dec_stable in Heq as ->. rewrite IH. split.
      * intros (Ho & pre & post & -> & Hpre). split; [done|].
        exists (id :: pre), post. split; [done|]. by constructor.
      * intros (Ho & pre & post & Hl & Hpre). split; [done|].
        destruct pre as [|q pre].
        -- injection Hl as ->. done.
        -- injection Hl as _ ->. apply Forall_cons_1 in Hpre as [_ Hpre].
           eauto.
Qed.

Lemma first_other_none (id : PlayerId) (l : list PlayerId) :
  first_other id l = None ↔ Forall (fun p => p = id) l.
Proof.
  induction l as [|p l IH]; simpl; [done|].
  destruct (decide (p ≠ id)) as [Hne | Heq].
  - split; [done|]. by intros [? _]%Forall_cons_1.
  - apply dec_stable in Heq as ->. rewrite IH. split.
    + by constructor.
    + by intros [_ ?]%Forall_cons_1.
Qed.

(** X1: [get_opponent_id] returns the first listed id that differs from
    the agent's own: the result is never the agent's id, and every player
    listed before it has the agent's id.  It returns nothing exactly when
    every listed player (possibly none) has the agent's id. *)
Theorem get_opponent_id_first_other (self : Self) (state : State) :
  (∀ o, get_opponent_id self state = Some o ↔
        o ≠ get_id self ∧
        ∃ pre post, players state = pre ++ o :: post ∧
                    Forall (fun p => p = get_id self) pre) ∧
  (get_opponent_id self state = None ↔
   Forall (fun p => p = get_id self) (players state)).
Proof.
  split.
  - intros o. apply first_other_some.
  - apply first_other_none.
Qed.

(** ** The evaluation is zero-sum *)

Lemma evaluate_state_two (self : Self) (state : State) (opponent : PlayerId) :
  opponent ≠ get_id self →
  players state = [get_id self; opponent] ∨
  players state = [opponent; get_id self] →
  evaluate_state self state
  = (ps ← scores state !! get_id self;
     os ← scores state !! opponent;
     Some ((ps - os)
           + (count_divercite_potential self state (get_id self)
              - count_divercite_potential self state opponent) * 5)%Z).
Proof.
  intros Hne Hplayers. unfold evaluate_state, get_opponent_id.
  rewrite (first_other_two _ opponent) by done.
  by destruct (scores state !! get_id self).
Qed.

(** X3: the evaluation is zero-sum.  In a state whose two players are the
    agents [a] and [b], what [a] computes is the opposite of what [b]
    computes, and one raises exactly when the other does. *)
Theorem evaluate_state_antisymmetric (a b : Self) (state : State) :
  get_id a ≠ get_id b →
  players state = [get_id a; get_id b] ∨
  players state = [get_id b; get_id a] →
  evaluate_state a state = Z.opp <$> evaluate_state b state.
Proof.
  intros Hne Hplayers.
  assert (get_id b ≠ get_id a) as Hne' by (intros Heq; by apply Hne).
  rewrite (evaluate_state_two a state (get_id b) Hne' Hplayers).
  rewrite (evaluate_state_two b state (get_id a) Hne) by (by destruct Hplayers; [right|left]).
  destruct (scores state !! get_id a) as [sa|],
           (scores state !! get_id b) as [sb|]; simpl; try done.
  f_equal. unfold count_divercite_potential. lia.
Qed.

(** ** Bounds on the formation count *)

Lemma length_range (n : Z) : length (range n) = Z.to_nat n.
Proof. unfold range. by rewrite length_fmap, length_seq. Qed.

Lemma length_grid (rows cols : list Z) :
  length (i ← rows; j ← cols; [(i, j)]) = length rows * length cols.
Proof.
  induction rows as [|i rows IH]; [done|].
  rewrite bind_cons, length_app, IH. cbn [length Nat.mul]. f_equal.
  clear IH. induction cols as [|j cols IHc]; [done|].
  rewrite bind_cons. cbn [length app]. by rewrite IHc.
Qed.

Lemma length_cells (state : State) :
  length (cells state)
  = Z.to_nat (get_dimensions state).1 * Z.to_nat (get_dimensions state).2.
Proof.
  unfold cells.
  rewrite (length_grid (range _) (range _)). by rewrite !length_range.
Qed.

Lemma length_filter_disjoint {A} (P Q : A → Prop)
    `{∀ x, Decision (P x)} `{∀ x, Decision (Q x)} (l : list A) :
  (∀ x, P x → Q x → False) →
  length (filter P l) + length (filter Q l) ≤ length l.
Proof.
  intros Hdisj. induction l as [|x l IH]; [done|].
  rewrite !filter_cons.
  destruct (decide (P x)) as [HP|], (decide (Q x)) as [HQ|]; simpl; try lia.
  destruct (Hdisj x HP HQ).
Qed.

(** X4: the formation count never exceeds the area of the board's
    rectangular extent, and is 0 when a dimension is zero or negative;
    the counts of two different players together do not exceed the area,
    since a cell is counted for its owner alone. *)
Theorem count_divercite_potential_bounds (self : Self) (state : State)
    (p q : PlayerId) :
  let area := (Z.max 0 (get_dimensions state).1
               * Z.max 0 (get_dimensions state).2)%Z in
  (count_divercite_potential self state p ≤ area)%Z ∧
  ((get_dimensions state).1 ≤ 0 ∨ (get_dimensions state).2 ≤ 0 →
   count_divercite_potential self state p = 0)%Z ∧
  (p ≠ q →
   count_divercite_potential self state p
   + count_divercite_potential self state q ≤ area)%Z.
Proof.
  intros area.
  assert (Z.of_nat (length (cells state)) = area) as Harea.
  { rewrite length_cells. subst area. lia. }
  rewrite !count_divercite_potential_filter.
  pose proof (length_filter (formation_cell state p) (cells state)) as Hp.
  split_and!.
  - lia.
  - intros Hdim. assert (area = 0%Z) as Hz by (subst area; lia). lia.
  - intros Hne.
    pose proof (length_filter_disjoint (formation_cell state p)
                  (formation_cell state q) (cells state)) as Hpq.
    cut (length (filter (formation_cell state p) (cells state))
         + length (filter (formation_cell state q) (cells state))
         ≤ length (cells state)); [lia|].
    apply Hpq. intros c [_ (piece & Hc & Ho & _)] [_ (piece' & Hc' & Ho' & _)].
    congruence.
Qed.

(** ** The depth along a match *)

Lemma Qgtb_mono (t1 t2 k : Q) :
  (t1 <= t2)%Q → Qgtb t1 k = true → Qgtb t2 k = true.
Proof.
  rewrite !Qgtb_true. intros Hle Hlt. by eapply Qlt_le_trans.
Qed.

Lemma get_dynamic_depth_mono (self self' : Self) (t1 t2 : Q) :
  (t1 <= t2)%Q → get_dynamic_depth self t1 ≤ get_dynamic_depth self' t2.
Proof.
  intros Hle. unfold get_dynamic_depth.
  destruct (Qgtb t1 600) eqn:H6.
  { by rewrite (Qgtb_mono _ _ _ Hle H6). }
  destruct (Qgtb t1 300) eqn:H3.
  { rewrite (Qgtb_mono _ _ _ Hle H3). destruct (Qgtb t2 600); lia. }
  destruct (Qgtb t2 600), (Qgtb t2 300); lia.
Qed.

Lemma step_fields (self : Self) (c : call State) :
  get_id (step self c) = get_id self ∧
  total_time_budget (step self c) = total_time_budget self ∧
  (time_used (step self c) = time_used self ∨
   time_used (step self c) = (time_used self + duration c)%Q).
Proof.
  destruct (minimax self (call_state c) (chosen_depth self) NegInf PosInf true)
    as [r|] eqn:Hr.
  - rewrite (step_returned self c) by by eexists. simpl. auto.
  - rewrite (step_raised self c Hr). auto.
Qed.

(** X5: along any sequence of calls whose measured durations are not
    negative, whether their searches return or raise, the agent keeps its
    id and its budget, [time_used] does not decrease, and the depth the
    scheduler chooses for the next call is never greater than the depth
    it chose before. *)
Theorem depth_never_increases (self : Self) (calls : list (call State)) :
  Forall (fun c => (0 <= duration c)%Q) calls →
  get_id (run self calls) = get_id self ∧
  total_time_budget (run self calls) = total_time_budget self ∧
  (time_used self <= time_used (run self calls))%Q ∧
  chosen_depth (run self calls) ≤ chosen_depth self.
Proof.
  intros Hpos.
  assert (get_id (run self calls) = get_id self ∧
          total_time_budget (run self calls) = total_time_budget self ∧
          (time_used self <= time_used (run self calls))%Q) as (Hid & Hb & Ht).
  { revert self. induction Hpos as [|c calls Hc _ IH]; intros self.
    - split_and!; [done..|apply Qle_refl].
    - change (run self (c :: calls)) with (run (step self c) calls).
      destruct (IH (step self c)) as (-> & -> & Ht).
      destruct (step_fields self c) as (-> & -> & Hstep).
      split_and!; [done..|]. eapply Qle_trans; [|exact Ht].
      destruct Hstep as [-> | ->]; lra. }
  split_and!; [done..|]. unfold chosen_depth. rewrite Hb.
  apply get_dynamic_depth_mono. lra.
Qed.



(** ** The move the search returns is one the state offers *)

Lemma earliest_with_elem (tr : list (Action * value)) (v : value)
    (move : option Action) :
  earliest_with tr v move → ∃ a, move = Some a ∧ a ∈ tr.*1.
Proof.
  intros (pre & a & post & -> & -> & _). exists a. split; [done|].
  rewrite fmap_app, fmap_cons. apply elem_of_app. right. by left.
Qed.

Lemma max_loop_move rec (state : State) (beta : value)
    (actions : list Action) (st : loop_state) (v : value)
    (move : option Action) :
  max_loop rec state beta actions st = Some (v, move) →
  move = st.1.2 ∨ ∃ a, a ∈ actions ∧ move = Some a.
Proof.
  intros Hloop.
  destruct (max_loop_choice _ _ _ _ _ _ _ Hloop)
    as (tr & _ & Hpre & _ & Hle & He & Hs).
  destruct (ValueFacts.le_cases _ _ Hle) as [Hlt | Heq]; [|left; by apply Hs].
  right. destruct (earliest_with_elem _ _ _ (He Hlt)) as (a & -> & Ha).
  exists a. split; [|done]. by eapply elem_of_prefix.
Qed.

Lemma min_loop_move rec (state : State) (alpha : value)
    (actions : list Action) (st : loop_state) (v : value)
    (move : option Action) :
  min_loop rec state alpha actions st = Some (v, move) →
  move = st.1.2 ∨ ∃ a, a ∈ actions ∧ move = Some a.
Proof.
  intros Hloop.
  destruct (min_loop_choice _ _ _ _ _ _ _ Hloop)
    as (tr & _ & Hpre & _ & Hle & He & Hs).
  destruct (ValueFacts.le_cases _ _ Hle) as [Hlt | Heq]; [|left; by apply Hs].
  right. destruct (earliest_with_elem _ _ _ (He Hlt)) as (a & -> & Ha).
  exists a. split; [|done]. by eapply elem_of_prefix.
Qed.

Lemma minimax_move (self : Self) (state : State) (depth : nat)
    (alpha beta : value) (flag : bool) (v : value) (a : Action) :
  minimax self state depth alpha beta flag = Some (v, Some a) →
  a ∈ generate_possible_light_actions state ∧
  is_done state = false ∧ depth ≠ 0.
Proof.
  destruct depth as [|depth]; simpl.
  { by destruct (evaluate_state self state). }
  destruct (is_done state).
  { by destruct (evaluate_state self state). }
  intros Hloop. split_and!; [|done..]. destruct flag.
  - by destruct (max_loop_move _ _ _ _ _ _ _ Hloop)
      as [[=] | (a' & Ha & [= ->])].
  - by destruct (min_loop_move _ _ _ _ _ _ _ Hloop)
      as [[=] | (a' & Ha & [= ->])].
Qed.

(** X7: a move returned by [minimax], at any depth, window and player
    flag, is one of the moves that the state generates; a move is
    returned only at a positive depth and on a state that is not
    finished. *)
Theorem minimax_move_is_legal (self : Self) (state : State) (depth : nat)
    (alpha beta : value) (maximizing_player : bool) (v : value)
    (a : Action) :
  minimax self state depth alpha beta maximizing_player = Some (v, Some a) →
  a ∈ generate_possible_light_actions state ∧
  is_done state = false ∧ depth ≠ 0.
Proof. apply minimax_move. Qed.

(** X8: the three outcomes of [compute_action] with its own search.  A
    returned move is the move of the search and a legal move of an
    unfinished state; the "no valid action" error is raised exactly when
    the search returned no move, so the membership test never rejects a
    move that the search found; a [KeyError] is raised exactly when the
    search raised. *)
Theorem compute_action_outcomes (self : Self) (state : State)
    (remaining_time : Q) (clock : Q * Q) :
  let result := (compute_action self state remaining_time clock).2 in
  let searched :=
    minimax self state (chosen_depth self) NegInf PosInf true in
  (∀ a, result = Return a →
        (∃ v, searched = Some (v, Some a)) ∧
        a ∈ generate_possible_light_actions state ∧
        is_done state = false) ∧
  (result = Raise MethodNotImplementedError ↔ ∃ v, searched = Some (v, None))
  ∧ (result = Raise KeyError ↔ searched = None).
Proof.
  intros result searched. subst result. unfold compute_action.
  rewrite compute_action_outcome. fold searched.
  destruct searched as [[v [a|]]|] eqn:Hs.
  - destruct (minimax_move _ _ _ _ _ _ _ _ Hs) as (Ha & Hdone & _).
    rewrite bool_decide_eq_true_2 by done. split_and!.
    + intros a' [= <-]. eauto.
    + split; [done|]. by intros (v' & [=]).
    + done.
  - split_and!; [done| |done]. split; eauto.
  - split_and!; [done| |done]. split; [done|]. by intros (v' & [=]).
Qed.

(** ** Pruning at an inner window *)

(** X9: at every window, if the exhaustive search of a node returns [e],
    the pruned search returns a value [v] such that: above [alpha], [v]
    does not exceed [e]; below [beta], [e] does not exceed [v]; strictly
    inside the window, [v] is [e]. *)
Theorem minimax_window_sound (self : Self) (state : State) (depth : nat)
    (alpha beta : value) (maximizing_player : bool) (e : value) :
  minimax_exhaustive self state depth maximizing_player = Some e →
  ∃ v move,
    minimax self state depth alpha beta maximizing_player = Some (v, move) ∧
    (alpha <v v → v ≤v e) ∧
    (v <v beta → e ≤v v) ∧
    (alpha <v v → v <v beta → v = e).
Proof.
  intros He.
  destruct (minimax_bounded self depth state alpha beta maximizing_player
              e He) as (v & move & Hv & Hlo & Hhi).
  exists v, move. split_and!; [done..|].
  intros Ha Hb. apply ValueFacts.le_antisym; auto.
Qed.

(** X10: when [evaluate_state] succeeds on every state, [minimax] returns
    at every depth, window and player flag: no [KeyError] can escape the
    search. *)
Theorem minimax_never_raises (self : Self) (state : State) (depth : nat)
    (alpha beta : value) (maximizing_player : bool) :
  (∀ s, is_Some (evaluate_state self s)) →
  is_Some (minimax self state depth alpha beta maximizing_player).
Proof.
  intros Heval.
  destruct (minimax_exhaustive_total self Heval depth state
              maximizing_player) as [e He].
  destruct (minimax_bounded self depth state alpha beta maximizing_player
              e He) as (v & move & Hv & _).
  by eexists.
Qed.

(** ** What is explored and when a loop stops *)

Lemma max_loop_cut rec (state : State) (beta : value)
    (actions : list Action) :
  ∀ (st : loop_state) (v : value) (move : option Action)
    (tr : list (Action * value)),
    max_loop rec state beta actions st = Some (v, move) →
    max_trace rec state beta actions st = Some tr →
    tr.*1 = actions ∨ beta ≤v v.
Proof.
  induction actions as [|action rest IH]; intros st v move tr.
  - intros _ [= <-]. by left.
  - cbn [max_loop max_trace].
    destruct (rec _ st.2 beta) as [[w move1]|]; [|done].
    cbn [mbind option_bind fst snd]. unfold Value.geb.
    destruct ((max_step st action w).1.1 <?v beta) eqn:Hcut; cbn [negb].
    + intros Hloop Htr.
      destruct (max_trace _ _ _ _ _) as [tr'|] eqn:Htr'; [|done].
      injection Htr as <-.
      destruct (IH _ _ _ _ Hloop Htr') as [<- | Hb]; [by left | by right].
    + intros [= <- <-] _. by right.
Qed.

Lemma min_loop_cut rec (state : State) (alpha : value)
    (actions : list Action) :
  ∀ (st : loop_state) (v : value) (move : option Action)
    (tr : list (Action * value)),
    min_loop rec state alpha actions st = Some (v, move) →
    min_trace rec state alpha actions st = Some tr →
    tr.*1 = actions ∨ v ≤v alpha.
Proof.
  induction actions as [|action rest IH]; intros st v move tr.
  - intros _ [= <-]. by left.
  - cbn [min_loop min_trace].
    destruct (rec _ alpha st.2) as [[w move1]|]; [|done].
    cbn [mbind option_bind fst snd]. unfold Value.leb.
    destruct (alpha <?v (min_step st action w).1.1) eqn:Hcut; cbn [negb].
    + intros Hloop Htr.
      destruct (min_trace _ _ _ _ _) as [tr'|] eqn:Htr'; [|done].
      injection Htr as <-.
      destruct (IH _ _ _ _ Hloop Htr') as [<- | Hb]; [by left | by right].
    + intros [= <- <-] _. by right.
Qed.

(** X11: at a node that enters a loop, the value returned by a
    maximizing node is at least the recursive value of every move it
    explored (at most, for a minimizing node), and moves are left
    unexplored only when the returned value has reached the bound: [beta]
    or more when maximizing, [alpha] or less when minimizing. *)
Theorem minimax_stops_only_at_bound (self : Self) (state : State)
    (depth' : nat) (alpha beta : value) (maximizing_player : bool)
    (v : value) (move : option Action) :
  is_done state = false →
  minimax self state (S depth') alpha beta maximizing_player
  = Some (v, move) →
  ∃ tr,
    explored self state depth' alpha beta maximizing_player = Some tr ∧
    Forall (fun p => if maximizing_player then p.2 ≤v v else v ≤v p.2) tr ∧
    (tr.*1 = generate_possible_light_actions state ∨
     if maximizing_player then beta ≤v v else v ≤v alpha).
Proof.
  intros Hdone. simpl. rewrite Hdone. unfold explored.
  destruct maximizing_player; intros Hloop.
  - destruct (max_loop_choice _ _ _ _ _ _ _ Hloop)
      as (tr & Htr & _ & Hall & _).
    exists tr. split_and!; [done..|]. by eapply max_loop_cut.
  - destruct (min_loop_choice _ _ _ _ _ _ _ Hloop)
      as (tr & Htr & _ & Hall & _).
    exists tr. split_and!; [done..|]. by eapply min_loop_cut.
Qed.

(** ** One ply: the greedy choice *)

Lemma max_trace_full rec (state : State) (actions : list Action)
    (zs : list Z) :
  Forall2 (fun a z => ∀ al be, ∃ mv,
             rec (apply_action state a) al be = Some (Fin z, mv))
          actions zs →
  ∀ st : loop_state, st.1.1 ≠ PosInf →
    max_trace rec state PosInf actions st = Some (zip actions (Fin <$> zs)).
Proof.
  induction 1 as [|a z actions zs Ha _ IH]; intros st Hst; [done|].
  cbn [max_trace]. destruct (Ha st.2 PosInf) as [mv ->].
  cbn [mbind option_bind fst snd].
  assert ((max_step st a (Fin z)).1.1 ≠ PosInf) as Hst'.
  { destruct st as [[m best] al]. cbn [max_step fst snd] in *.
    by destruct (Fin z >?v m). }
  assert (((max_step st a (Fin z)).1.1 >=?v PosInf) = false) as ->.
  { by destruct ((max_step st a (Fin z)).1.1). }
  by rewrite (IH _ Hst').
Qed.

Lemma minimax_loop (self : Self) (state : State) (depth' : nat)
    (alpha beta : value) (flag : bool) :
  is_done state = false →
  minimax self state (S depth') alpha beta flag
  = if flag then
      max_loop (fun s a b => minimax self s depth' a b false) state beta
        (generate_possible_light_actions state) (NegInf, None, alpha)
    else
      min_loop (fun s a b => minimax self s depth' a b true) state alpha
        (generate_possible_light_actions state) (PosInf, None, beta).
Proof. intros Hdone. simpl. by rewrite Hdone. Qed.

Lemma best_of_nonempty (zs : list Z) :
  zs ≠ [] → NegInf <v foldr Value.max NegInf (Fin <$> zs).
Proof.
  destruct zs as [|z zs]; [done|]. intros _. rewrite fmap_cons. cbn [foldr].
  eapply ValueFacts.lt_le_trans; [|apply ValueFacts.le_max_l,
                                    ValueFacts.le_refl].
  done.
Qed.

(** X12: at depth 1 from the root window, on a state that is not finished
    and whose successors can all be evaluated, the search returns the
    greatest evaluation of a successor, with the earliest move that
    reaches it: every move is explored and none is cut off. *)
Theorem minimax_depth_one_greedy (self : Self) (state : State)
    (zs : list Z) :
  is_done state = false →
  mapM (fun a => evaluate_state self (apply_action state a))
       (generate_possible_light_actions state) = Some zs →
  zs ≠ [] →
  let best := foldr Value.max NegInf (Fin <$> zs) in
  ∃ a,
    minimax self state 1 NegInf PosInf true = Some (best, Some a) ∧
    explored self state 0 NegInf PosInf true
    = Some (zip (generate_possible_light_actions state) (Fin <$> zs)) ∧
    earliest_with (zip (generate_possible_light_actions state) (Fin <$> zs))
                  best (Some a).
Proof.
  intros Hdone Hzs Hne best. apply mapM_Some in Hzs.
  assert (minimax_exhaustive self state 1 true = Some best) as Hex.
  { simpl. rewrite Hdone.
    assert (mapM (fun a => Fin <$> evaluate_state self (apply_action state a))
                 (generate_possible_light_actions state)
            = Some (Fin <$> zs)) as ->; [|done].
    apply mapM_Some. clear -Hzs.
    induction Hzs as [|a z l k Ha _ IH]; [constructor|].
    rewrite fmap_cons. constructor; [|done]. by rewrite Ha. }
  destruct (minimax_bounded self 1 state NegInf PosInf true best Hex)
    as (v & move & Hv & Hb).
  apply bounded_root in Hb as ->.
  assert (explored self state 0 NegInf PosInf true
          = Some (zip (generate_possible_light_actions state) (Fin <$> zs)))
    as Htr.
  { unfold explored. apply max_trace_full; [|done].
    eapply Forall2_impl; [exact Hzs|]. intros a z Ha al be. simpl.
    rewrite Ha. by eexists. }
  pose proof Hv as Hloop. rewrite minimax_loop in Hloop by done.
  destruct (max_loop_choice _ _ _ _ _ _ _ Hloop)
    as (tr & Htr' & _ & _ & _ & He & _).
  unfold explored in Htr. rewrite Htr in Htr'. injection Htr' as <-.
  specialize (He (best_of_nonempty zs Hne)).
  destruct (earliest_with_elem _ _ _ He) as (a & -> & _).
  exists a. by split_and!.
Qed.

(** ** Games in which an unfinished position always has a move *)

Lemma max_loop_finite rec (state : State) (beta : value)
    (actions : list Action) :
  (∀ s a b r, rec s a b = Some r → ∃ z, r.1 = Fin z) →
  ∀ (st : loop_state) (v : value) (move : option Action),
    max_loop rec state beta actions st = Some (v, move) →
    (st.1.1 = NegInf ∧ actions ≠ []) ∨
    (∃ z, st.1.1 = Fin z ∧ is_Some st.1.2) →
    (∃ z, v = Fin z) ∧ is_Some move.
Proof.
  intros Hrec. induction actions as [|action rest IH]; intros st v move.
  - intros [= <- <-] [[_ ?] | (z & Hz & Hbest)]; [done|]. eauto.
  - destruct st as [[m best] al]. cbn [max_loop fst snd].
    destruct (rec _ al beta) as [[w move1]|] eqn:Hr; [|done].
    destruct (Hrec _ _ _ _ Hr) as [zw Hw]. cbn [fst] in Hw. subst w.
    cbn [mbind option_bind fst snd max_step]. unfold Value.gtb, Value.geb.
    intros Hloop Hpre.
    destruct (m <?v Fin zw) eqn:Hm; cbn [fst snd] in Hloop.
    + destruct (Fin zw <?v beta); cbn [negb] in Hloop.
      * apply (IH _ _ _ Hloop). right. exists zw. by split.
      * injection Hloop as <- <-. split; by eexists.
    + destruct Hpre as [[-> _] | (z & -> & Hbest)]; [done|].
      cbn [fst snd] in *.
      destruct (Fin z <?v beta); cbn [negb] in Hloop.
      * apply (IH _ _ _ Hloop). right. exists z. by split.
      * injection Hloop as <- <-. split; [by eexists | done].
Qed.

Lemma min_loop_finite rec (state : State) (alpha : value)
    (actions : list Action) :
  (∀ s a b r, rec s a b = Some r → ∃ z, r.1 = Fin z) →
  ∀ (st : loop_state) (v : value) (move : option Action),
    min_loop rec state alpha actions st = Some (v, move) →
    (st.1.1 = PosInf ∧ actions ≠ []) ∨
    (∃ z, st.1.1 = Fin z ∧ is_Some st.1.2) →
    (∃ z, v = Fin z) ∧ is_Some move.
Proof.
  intros Hrec. induction actions as [|action rest IH]; intros st v move.
  - intros [= <- <-] [[_ ?] | (z & Hz & Hbest)]; [done|]. eauto.
  - destruct st as [[m best] bt]. cbn [min_loop fst snd].
    destruct (rec _ alpha bt) as [[w move1]|] eqn:Hr; [|done].
    destruct (Hrec _ _ _ _ Hr) as [zw Hw]. cbn [fst] in Hw. subst w.
    cbn [mbind option_bind fst snd min_step]. unfold Value.leb.
    intros Hloop Hpre.
    destruct (Fin zw <?v m) eqn:Hm; cbn [fst snd] in Hloop.
    + destruct (alpha <?v Fin zw); cbn [negb] in Hloop.
      * apply (IH _ _ _ Hloop). right. exists zw. by split.
      * injection Hloop as <- <-. split; by eexists.
    + destruct Hpre as [[-> _] | (z & -> & Hbest)]; [done|].
      cbn [fst snd] in *.
      destruct (alpha <?v Fin z); cbn [negb] in Hloop.
      * apply (IH _ _ _ Hloop). right. exists z. by split.
      * injection Hloop as <- <-. split; [by eexists | done].
Qed.

Lemma minimax_finite (self : Self) :
  (∀ s, is_done s = false → generate_possible_light_actions s ≠ []) →
  ∀ (depth : nat) (state : State) (alpha beta : value) (flag : bool)
    (v : value) (move : option Action),
    minimax self state depth alpha beta flag = Some (v, move) →
    (∃ z, v = Fin z) ∧
    (depth ≠ 0 → is_done state = false → is_Some move).
Proof.
  intros Hmoves. induction depth as [|depth IH];
    intros state alpha beta flag v move; simpl.
  - destruct (evaluate_state self state) as [z|]; [|done].
    intros [= <- <-]. split; [by eexists | done].
  - destruct (is_done state) eqn:Hdone.
    { destruct (evaluate_state self state) as [z|]; [|done].
      intros [= <- <-]. split; [by eexists | done]. }
    assert (∀ f s a b r, minimax self s depth a b f = Some r →
                         ∃ z, r.1 = Fin z) as Hrec.
    { intros f s a b [w mv] Hr. by destruct (IH _ _ _ _ _ _ Hr). }
    intros Hloop. destruct flag.
    + destruct (max_loop_finite _ _ _ _ (Hrec false) _ _ _ Hloop)
        as [Hv Hmove]; [left; split; [done | by apply Hmoves]|].
      by split.
    + destruct (min_loop_finite _ _ _ _ (Hrec true) _ _ _ Hloop)
        as [Hv Hmove]; [left; split; [done | by apply Hmoves]|].
      by split.
Qed.

(** X13: in a game where every position that is not finished has a legal
    move, every value returned by [minimax] is an integer, never an
    infinity, and a search of positive depth on an unfinished state
    returns a move. *)
Theorem minimax_finite_value (self : Self) (state : State) (depth : nat)
    (alpha beta : value) (maximizing_player : bool) (v : value)
    (move : option Action) :
  (∀ s, is_done s = false → generate_possible_light_actions s ≠ []) →
  minimax self state depth alpha beta maximizing_player = Some (v, move) →
  (∃ z, v = Fin z) ∧
  (depth ≠ 0 → is_done state = false →
   ∃ a, move = Some a ∧ a ∈ generate_possible_light_actions state).
Proof.
  intros Hmoves Hsearch.
  destruct (minimax_finite self Hmoves _ _ _ _ _ _ _ Hsearch) as [Hv Hmove].
  split; [done|]. intros Hd Hdone. destruct (Hmove Hd Hdone) as [a ->].
  exists a. split; [done|]. by destruct (minimax_move _ _ _ _ _ _ _ _ Hsearch).
Qed.

(** X14: in such a game, [compute_action] on a state that is not finished
    returns a legal move whenever its search returns: the "no valid
    action" error is then reserved to finished states. *)
Theorem compute_action_finds_move (self : Self) (state : State)
    (remaining_time : Q) (clock : Q * Q) :
  (∀ s, is_done s = false → generate_possible_light_actions s ≠ []) →
  is_done state = false →
  is_Some (minimax self state (chosen_depth self) NegInf PosInf true) →
  ∃ a, (compute_action self state remaining_time clock).2 = Return a ∧
       a ∈ generate_possible_light_actions state.
Proof.
  intros Hmoves Hdone [[v move] Hsearch].
  destruct (minimax_finite self Hmoves _ _ _ _ _ _ _ Hsearch) as [_ Hmove].
  destruct Hmove as [a ->]; [|done|].
  { destruct (get_dynamic_depth_succ self
                (total_time_budget self - time_used self)) as [d Hd].
    unfold chosen_depth. by rewrite Hd. }
  destruct (minimax_move _ _ _ _ _ _ _ _ Hsearch) as (Ha & _).
  exists a. split; [|done]. unfold compute_action.
  rewrite compute_action_outcome, Hsearch. by rewrite bool_decide_eq_true_2.
Qed.

(** ** Which outcomes are charged to the budget *)

(** X15: a decision cycle is charged to [time_used] whenever its search
    returns, also when the cycle then ends in the "no valid action"
    error; when the search raises [KeyError] the agent is left exactly as
    it was. *)
Theorem compute_action_charges_time (self : Self) (state : State)
    (remaining_time : Q) (clock : Q * Q) :
  let after := (compute_action self state remaining_time clock).1 in
  let result := (compute_action self state remaining_time clock).2 in
  (result ≠ Raise KeyError →
   after = {| get_id := get_id self;
              time_used := (time_used self + (clock.2 - clock.1))%Q;
              total_time_budget := total_time_budget self |}) ∧
  (result = Raise KeyError → after = self).
Proof.
  intros after result. subst after result.
  unfold compute_action, compute_action_with.
  destruct (minimax _ _ _ _ _ _) as [[v [a|]]|]; [| |done].
  - by destruct (bool_decide _).
  - done.
Qed.

End Further.

(** * The further properties on the concrete rules engines *)

(** On [Tree.board] player 0 computes 8 and player 1 computes -8. *)
Lemma evaluate_state_antisymmetric_witness :
  evaluate_state Tree.me Tree.board = Some 8%Z ∧
  evaluate_state Tree.other Tree.board = Some (-8)%Z ∧
  evaluate_state Tree.me Tree.board
  = Z.opp <$> evaluate_state Tree.other Tree.board.
Proof.
  split; [vm_compute; reflexivity|]. split; [vm_compute; reflexivity|].
  apply (evaluate_state_antisymmetric Tree.me Tree.other Tree.board).
  - discriminate.
  - left; reflexivity.
Defined.

Lemma cycles_nonnegative :
  Forall (fun c => (0 <= duration c)%Q) Tree.cycles.
Proof. repeat constructor; vm_compute; discriminate. Defined.

(** After the two cycles of [Tree.cycles] the depth is still 3. *)
Lemma depth_never_increases_witness :
  chosen_depth (run Tree.me Tree.cycles) ≤ chosen_depth Tree.me.
Proof.
  apply (depth_never_increases Tree.me Tree.cycles cycles_nonnegative).
Defined.

(** After one cycle of 350 seconds the next search is at depth 2; after
    one of 1000 seconds, beyond the budget, it is at depth 1. *)
Example depth_after_slow_cycles :
  chosen_depth (run Tree.me Tree.slow) = 2 ∧
  chosen_depth
    (run Tree.me [ {| call_state := Tree.small; call_remaining_time := 0;
                      call_clock := (0, 1000)%Q |} ]) = 1.
Proof. split; vm_compute; reflexivity. Qed.

(** The search of [Tree.small] returns move 0, one of its three moves. *)
Lemma minimax_move_is_legal_witness :
  minimax Tree.me Tree.small 2 NegInf PosInf true = Some (Fin 3, Some 0) ∧
  0 ∈ generate_possible_light_actions Tree.small.
Proof.
  assert (minimax Tree.me Tree.small 2 NegInf PosInf true
          = Some (Fin 3, Some 0)) as Hsearch by (vm_compute; reflexivity).
  split; [exact Hsearch|].
  apply (minimax_move_is_legal Tree.me Tree.small 2 NegInf PosInf true
           (Fin 3) 0 Hsearch).
Defined.

(** [Tree.small], whose exhaustive value is 3, searched at the window
    (0, 4). *)
Lemma minimax_window_sound_witness :
  ∃ v move,
    minimax Tree.me Tree.small 2 (Fin 0) (Fin 4) true = Some (v, move) ∧
    (Fin 0 <v v → v ≤v Fin 3) ∧
    (v <v Fin 4 → Fin 3 ≤v v) ∧
    (Fin 0 <v v → v <v Fin 4 → v = Fin 3).
Proof.
  apply (minimax_window_sound Tree.me Tree.small 2 (Fin 0) (Fin 4) true
           (Fin 3)).
  vm_compute; reflexivity.
Defined.

(** The second branch of [Tree.small], a minimizing node searched at
    [alpha = 3], stops after its first move, whose value 2 is below
    [alpha]. *)
Lemma minimax_stops_only_at_bound_witness :
  ∃ tr,
    explored Tree.me (apply_action Tree.small 1) 0 (Fin 3) PosInf false
    = Some tr ∧
    Forall (fun p => Fin 2 ≤v p.2) tr ∧
    (tr.*1 = generate_possible_light_actions (apply_action Tree.small 1) ∨
     Fin 2 ≤v Fin 3).
Proof.
  apply (minimax_stops_only_at_bound Tree.me (apply_action Tree.small 1) 0
           (Fin 3) PosInf false (Fin 2) (Some 0)).
  - reflexivity.
  - vm_compute; reflexivity.
Defined.

(** One ply above evaluations 3 and 5: value 5 by move 1. *)
Lemma minimax_depth_one_greedy_witness :
  ∃ a,
    minimax Tree.me Tree.pair 1 NegInf PosInf true = Some (Fin 5, Some a) ∧
    explored Tree.me Tree.pair 0 NegInf PosInf true
    = Some [(0, Fin 3); (1, Fin 5)] ∧
    earliest_with [(0, Fin 3); (1, Fin 5)] (Fin 5) (Some a).
Proof.
  assert (is_done Tree.pair = false) as Hdone by reflexivity.
  assert (mapM (fun a => evaluate_state Tree.me (apply_action Tree.pair a))
               (generate_possible_light_actions Tree.pair)
          = Some [3; 5]%Z) as Hzs by (vm_compute; reflexivity).
  assert ([3; 5]%Z ≠ []) as Hne by discriminate.
  exact (minimax_depth_one_greedy Tree.me Tree.pair [3; 5]%Z Hdone Hzs Hne).
Defined.

(** The countdown game: every position can be evaluated, and a position
    that is not finished has a move. *)
Lemma countdown_evaluates (n : nat) :
  is_Some (evaluate_state Countdown.me n).
Proof.
  unfold evaluate_state, get_opponent_id. simpl.
  rewrite lookup_insert_eq. simpl.
  rewrite lookup_insert_ne, lookup_singleton_eq by done. simpl.
  by eexists.
Defined.

Lemma countdown_has_move (n : nat) :
  is_done n = false → generate_possible_light_actions n ≠ [].
Proof. by destruct n as [|[|n]]. Defined.

Lemma minimax_never_raises_witness :
  is_Some (minimax Countdown.me 7 3 NegInf PosInf true).
Proof.
  apply (minimax_never_raises Countdown.me 7 3 NegInf PosInf true).
  exact countdown_evaluates.
Defined.

(** From 7 tokens at depth 3 the search returns value 2 and move 2, one
    of the two moves of the position. *)
Lemma minimax_finite_value_witness :
  minimax Countdown.me 7 3 NegInf PosInf true = Some (Fin 2, Some 2) ∧
  ∃ a, Some 2 = Some a ∧ a ∈ generate_possible_light_actions 7.
Proof.
  assert (minimax Countdown.me 7 3 NegInf PosInf true = Some (Fin 2, Some 2))
    as Hsearch by (vm_compute; reflexivity).
  split; [exact Hsearch|].
  apply (minimax_finite_value Countdown.me 7 3 NegInf PosInf true
           (Fin 2) (Some 2) countdown_has_move Hsearch); done.
Defined.

Lemma compute_action_finds_move_witness :
  ∃ a, (compute_action Countdown.me 7 0 (10, 12)%Q).2 = Return a ∧
       a ∈ generate_possible_light_actions 7.
Proof.
  apply (compute_action_finds_move Countdown.me 7 0 (10, 12)%Q).
  - exact countdown_has_move.
  - reflexivity.
  - eexists. vm_compute; reflexivity.
Defined.
